(** * Blockchain.ts: byte cursors, field templates and the merkle tree

    A shallow embedding of [src/buffer/Writer.ts], [src/buffer/Reader.ts],
    [src/buffer/Template.ts], [src/types/TemplateField.ts],
    [src/struct/MerkleTree.ts] and of the methods of the abstract classes
    [src/abstract/Block.ts], [src/abstract/Transaction.ts] and
    [src/abstract/Wallet.ts], followed by the properties of these
    classes.

    Conventions of the embedding:
    - a JavaScript [number] that is used as an index, an offset or a byte
      count is an integer of [Z]; a [bigint] is an integer of [Z] too;
    - the elements of a [Uint8Array] (or [Buffer]) are integers of [Z]; every
      store into a typed array reduces the stored value modulo 256, as the
      language does;
    - a value that may be [undefined] is an [option];
    - a call that may throw returns an [outcome]. *)

From Stdlib Require Import ZArith List Lia Bool ZifyNat.
From Stdlib Require Ascii String.
From stdpp Require Import base option list.
Import ListNotations.

Open Scope Z_scope.

(** ** Outcomes of a call *)

Inductive exn : Type :=
| RangeError
| TypeError.

(** [Diverges] is the outcome of a loop that is run on fuel and has used all
    of it; no function of the source produces it on enough fuel. *)
Inductive outcome (A : Type) : Type :=
| Returns (a : A)
| Throws (e : exn)
| Diverges.

Arguments Returns {A} a.
Arguments Throws {A} e.
Arguments Diverges {A}.

Definition bind {A B : Type} (m : outcome A) (k : A -> outcome B) : outcome B :=
  match m with
  | Returns a => k a
  | Throws e => Throws e
  | Diverges => Diverges
  end.

Notation "'let*' x ':=' m 'in' k" := (bind m (fun x => k))
  (at level 10, x name, m at level 100, k at level 200).

(** ** Bytes and fixed-width integers *)

Abbreviation bytes := (list Z) (only parsing).

(** The bytes of a typed array are the integers from 0 to 255. *)
Definition is_byte (b : Z) : Prop := 0 <= b < 256.

(** [n] bytes of [v], least significant first: [v] modulo [256 ^ n]. *)
Fixpoint le_bytes (n : nat) (v : Z) : bytes :=
  match n with
  | O => []
  | S n' => v mod 256 :: le_bytes n' (v / 256)
  end.

(** The unsigned integer whose bytes, least significant first, are [bs]. *)
Fixpoint le_value (bs : bytes) : Z :=
  match bs with
  | [] => 0
  | b :: bs' => b + 256 * le_value bs'
  end.

(** The unsigned integer whose bytes, most significant first, are [bs]. *)
Definition be_value (bs : bytes) : Z :=
  fold_left (fun acc b => 256 * acc + b) bs 0.

(** Two's complement reading of an unsigned integer of [n] bytes. *)
Definition to_signed (n : nat) (v : Z) : Z :=
  if v <? 256 ^ Z.of_nat n / 2 then v else v - 256 ^ Z.of_nat n.

(** ** Typed arrays: indexed access without exceptions *)

Module TypedArray.

(** [a[i]]: [undefined] outside of the array. *)
Definition get (a : bytes) (i : Z) : option Z :=
  if 0 <=? i then a !! Z.to_nat i else None.

(** [a[i] = v]: ignored outside of the array, reduced modulo 256 inside. *)
Definition set (a : bytes) (i v : Z) : bytes :=
  if (0 <=? i) && (i <? Z.of_nat (length a))
  then <[Z.to_nat i := v mod 256]> a
  else a.

(** A relative index of [subarray], [slice] and the like: a negative index
    counts from the end, and the result is clamped to the array. *)
Definition relative (len i : Z) : Z :=
  if i <? 0 then Z.max (len + i) 0 else Z.min i len.

(** [a.subarray(begin, end)]. *)
Definition subarray (a : bytes) (begin_ end_ : Z) : bytes :=
  let len := Z.of_nat (length a) in
  let b := relative len begin_ in
  let e := relative len end_ in
  take (Z.to_nat (Z.max (e - b) 0)) (drop (Z.to_nat b) a).

(** [new Uint8Array(n)]: [n] zero bytes. *)
Definition zeros (n : nat) : bytes := replicate n 0.

End TypedArray.

(** ** Data views: multi-byte access with bounds checks *)

Module DataView.

(** The bounds check of every accessor: [width] bytes from [byteOffset]
    must lie inside the view. *)
Definition in_bounds (mem : bytes) (byteOffset : Z) (width : nat) : bool :=
  (0 <=? byteOffset) && (byteOffset + Z.of_nat width <=? Z.of_nat (length mem)).

Definition window (mem : bytes) (byteOffset : Z) (width : nat) : bytes :=
  take width (drop (Z.to_nat byteOffset) mem).

(** [setUint16/32(byteOffset, value, true)] and
    [setBigUint64(byteOffset, value, true)]: little-endian stores. *)
Definition setUintLE (width : nat) (mem : bytes) (byteOffset value : Z)
  : outcome bytes :=
  if in_bounds mem byteOffset width
  then Returns (take (Z.to_nat byteOffset) mem
                ++ le_bytes width value
                ++ drop (Z.to_nat byteOffset + width) mem)
  else Throws RangeError.

(** [getUint16/32(byteOffset, true)] and [getBigUint64(byteOffset, true)]:
    little-endian loads. *)
Definition getUintLE (width : nat) (mem : bytes) (byteOffset : Z)
  : outcome Z :=
  if in_bounds mem byteOffset width
  then Returns (le_value (window mem byteOffset width))
  else Throws RangeError.

(** [getInt8/16/32(byteOffset)] and [getBigInt64(byteOffset)]: without the
    [littleEndian] argument a data view loads big-endian; the result is
    signed. *)
Definition getIntBE (width : nat) (mem : bytes) (byteOffset : Z)
  : outcome Z :=
  if in_bounds mem byteOffset width
  then Returns (to_signed width (be_value (window mem byteOffset width)))
  else Throws RangeError.

End DataView.

(** ** Writer *)

Module Writer.

(** [buffer] is the memory that the writer shares with its caller. [data] is
    a view of the bytes of [buffer] itself: the accessors of [data] are
    applied to the field [buffer]. *)
Record t : Type := mk {
  buffer : bytes;
  offset : Z;
  size : Z
}.

Definition constructor (buffer : bytes) (offset : option Z) : t :=
  {| buffer := buffer;
     offset := default 0 offset;
     size := Z.of_nat (length buffer) |}.

(** A store of [data] that throws leaves the writer as it was: the offset
    moves after the store. *)

Definition writeUint8 (v : Z) (this : t) : t :=
  {| buffer := TypedArray.set (buffer this) (offset this) v;
     offset := offset this + 1;
     size := size this |}.

Definition writeUint16 (v : Z) (this : t) : outcome t :=
  let* mem := DataView.setUintLE 2 (buffer this) (offset this) v in
  Returns {| buffer := mem; offset := offset this + 2; size := size this |}.

Definition writeUint32 (v : Z) (this : t) : outcome t :=
  let* mem := DataView.setUintLE 4 (buffer this) (offset this) v in
  Returns {| buffer := mem; offset := offset this + 4; size := size this |}.

Definition writeUint64 (v : Z) (this : t) : outcome t :=
  let* mem := DataView.setUintLE 8 (buffer this) (offset this) v in
  Returns {| buffer := mem; offset := offset this + 8; size := size this |}.

(** The loop of [writeBuffer]: [count] iterations from index [i]. An index
    outside of [buf] reads [undefined], which a typed array stores as 0. *)
Fixpoint writeBuffer_loop (buf : bytes) (count : nat) (i : Z) (this : t)
  : t :=
  match count with
  | O => this
  | S count' =>
      writeBuffer_loop buf count' (i + 1)
        (writeUint8 (default 0 (TypedArray.get buf i)) this)
  end.

Definition writeBuffer (buf : bytes) (index : option Z) (this : t) : t :=
  let i := default 0 index in
  writeBuffer_loop buf (Z.to_nat (Z.of_nat (length buf) - i)) i this.

End Writer.

(** ** Reader *)

Module Reader.

Record t : Type := mk {
  buffer : bytes;
  offset : Z;
  size : Z
}.

Definition constructor (buffer : bytes) (offset : option Z) : t :=
  let o := default 0 offset in
  {| buffer := buffer;
     offset := if (o <? 0) || (o >=? Z.of_nat (length buffer)) then 0 else o;
     size := Z.of_nat (length buffer) |}.

Definition advance (n : Z) (this : t) : t :=
  {| buffer := buffer this; offset := offset this + n; size := size this |}.

(** Every read returns its result together with the reader it leaves: the
    offset moves even when the load throws. *)
Definition readUint8 (this : t) : option Z * t :=
  (TypedArray.get (buffer this) (offset this), advance 1 this).

Definition readUint16 (this : t) : outcome Z * t :=
  let this' := advance 2 this in
  (DataView.getUintLE 2 (buffer this') (offset this' - 2), this').

Definition readUint32 (this : t) : outcome Z * t :=
  let this' := advance 4 this in
  (DataView.getUintLE 4 (buffer this') (offset this' - 4), this').

Definition readUint64 (this : t) : outcome Z * t :=
  let this' := advance 8 this in
  (DataView.getUintLE 8 (buffer this') (offset this' - 8), this').

Definition readBuffer (size : Z) (this : t) : bytes * t :=
  let this' := advance size this in
  (TypedArray.subarray (buffer this') (offset this' - size) (offset this'),
   this').

End Reader.

(** ** Template fields *)

(** A [Uint8Array] is a window of an [ArrayBuffer]: the bytes [elements],
    with the bytes of the array buffer in front of the window and behind it.
    [new Uint8Array([...])] and [Uint8Array.from(...)] make a window that is
    the whole array buffer; a [Buffer] of Node's pool is a window inside a
    larger one. *)
Module Uint8Array.

Record t : Type := mk {
  before : bytes;
  elements : bytes;
  after : bytes
}.

Definition buffer (a : t) : bytes := before a ++ elements a ++ after a.
Definition byteOffset (a : t) : nat := length (before a).
Definition byteLength (a : t) : nat := length (elements a).

(** [new Uint8Array([...])] *)
Definition of_list (l : bytes) : t :=
  {| before := []; elements := l; after := [] |}.

End Uint8Array.

Module TemplateField.

Inductive kind : Type :=
| buffer
| uint8
| uint16
| uint32
| uint64.

Record t : Type := mk {
  type : kind;
  data : Uint8Array.t
}.

(** The number of bytes that [Template.toBuffer] writes for a field: the
    width of its type, all of [data] for a [buffer]. *)
Definition width (f : t) : nat :=
  match type f with
  | buffer => Uint8Array.byteLength (data f)
  | uint8 => 1
  | uint16 => 2
  | uint32 => 4
  | uint64 => 8
  end.

End TemplateField.

(** ** Template *)

Module Template.

Record t : Type := mk {
  fields : list TemplateField.t;
  byteLength : nat
}.

Definition constructor (fields : option (list TemplateField.t)) : t :=
  let fields := default [] fields in
  {| fields := fields;
     byteLength :=
       fold_left (fun prev cur => (prev + cur)%nat)
         (map (fun f => Uint8Array.byteLength (TemplateField.data f)) fields)
         0%nat |}.

(** [Buffer.allocUnsafe(n)]: [n] bytes of whatever the memory held, here
    the bytes that [junk] gives. *)
Definition allocUnsafe (junk : nat -> Z) (n : nat) : bytes :=
  map (fun i => junk i mod 256) (seq 0 n).

(** The body of the loop of [toBuffer] for one field. The data view is
    built over the whole array buffer of [data], from its first byte. *)
Definition writeField (f : TemplateField.t) (writer : Writer.t)
  : outcome Writer.t :=
  let view := Uint8Array.buffer (TemplateField.data f) in
  match TemplateField.type f with
  | TemplateField.buffer =>
      Returns (Writer.writeBuffer
                 (Uint8Array.elements (TemplateField.data f)) None writer)
  | TemplateField.uint8 =>
      let* v := DataView.getIntBE 1 view 0 in
      Returns (Writer.writeUint8 v writer)
  | TemplateField.uint16 =>
      let* v := DataView.getIntBE 2 view 0 in
      Writer.writeUint16 v writer
  | TemplateField.uint32 =>
      let* v := DataView.getIntBE 4 view 0 in
      Writer.writeUint32 v writer
  | TemplateField.uint64 =>
      let* v := DataView.getIntBE 8 view 0 in
      Writer.writeUint64 v writer
  end.

Fixpoint toBuffer_loop (fields : list TemplateField.t) (writer : Writer.t)
  : outcome Writer.t :=
  match fields with
  | [] => Returns writer
  | f :: fields' =>
      let* writer' := writeField f writer in
      toBuffer_loop fields' writer'
  end.

Definition toBuffer (junk : nat -> Z) (this : t) : outcome bytes :=
  let buffer := allocUnsafe junk (byteLength this) in
  let writer := Writer.constructor buffer None in
  let* writer' := toBuffer_loop (fields this) writer in
  Returns (Writer.buffer writer').

End Template.

(** ** MerkleTree *)

Module MerkleTree.

Definition DEFAULT_HASH_SIZE : nat := 32.

(** [hashes] is the array of the caller itself, not a copy of it: what a
    method does to the field is what the caller sees, and a caller who
    changes the array changes the field ([set_hashes]). [hashSize] is a
    number of bytes. [hashCalls] is not a field of the class: it records the
    arguments that [hashFunction] has been called with, oldest first. *)
Record t : Type := mk {
  hashes : list bytes;
  hashFunction : bytes -> bytes;
  hashSize : nat;
  merkleRoot : option bytes;
  hashCalls : list bytes
}.

Definition set_hashes (hs : list bytes) (this : t) : t :=
  {| hashes := hs; hashFunction := hashFunction this;
     hashSize := hashSize this; merkleRoot := merkleRoot this;
     hashCalls := hashCalls this |}.

Definition set_merkleRoot (r : option bytes) (this : t) : t :=
  {| hashes := hashes this; hashFunction := hashFunction this;
     hashSize := hashSize this; merkleRoot := r;
     hashCalls := hashCalls this |}.

Definition set_hashCalls (calls : list bytes) (this : t) : t :=
  {| hashes := hashes this; hashFunction := hashFunction this;
     hashSize := hashSize this; merkleRoot := merkleRoot this;
     hashCalls := calls |}.

(** [hashes.pop()] *)
Definition pop (hashes : list bytes) : list bytes :=
  take (length hashes - 1) hashes.

(** The [for] loop of [computeMerkleRoot], entered with the counter at
    [i]: the loop runs while [i > 1] and steps by [i -= 2].
    [Buffer.concat] throws on an [undefined] element. *)
Fixpoint forLoop (f : bytes -> bytes) (i : nat) (hashes calls : list bytes)
  : outcome (list bytes * list bytes) :=
  match i with
  | S (S i') =>
      match hashes !! i', hashes !! S i' with
      | Some l, Some r =>
          let nodeHash := l ++ r in
          forLoop f i' (pop (<[i' := f nodeHash]> hashes))
            (calls ++ [nodeHash])
      | _, _ => Throws TypeError
      end
  | _ => Returns (hashes, calls)
  end.

(** The [while] loop of [computeMerkleRoot], on fuel. *)
Fixpoint whileLoop (fuel : nat) (f : bytes -> bytes)
  (hashes calls : list bytes) : outcome (list bytes * list bytes) :=
  if (1 <? length hashes)%nat then
    match fuel with
    | O => Diverges
    | S fuel' =>
        let* pass := forLoop f (length hashes) hashes calls in
        whileLoop fuel' f (fst pass) (snd pass)
    end
  else Returns (hashes, calls).

(** The clone of the last hash: a list of odd length has a last element,
    so that the second branch is never taken. *)
Definition padded (hashes : list bytes) : list bytes :=
  if negb (length hashes mod 2 =? 0)%nat then
    match hashes !! (length hashes - 1)%nat with
    | Some h => hashes ++ [h]
    | None => hashes
    end
  else hashes.

(** The working copy [hashes_] is a list of its own. It has as many hashes
    as the loop needs passes at most: its length is the fuel. *)
Definition computeMerkleRoot (this : t) : outcome (option bytes * t) :=
  let this := set_hashes (padded (hashes this)) this in
  let hashes_ := hashes this in
  let* reduced :=
    whileLoop (length hashes_) (hashFunction this) hashes_ (hashCalls this) in
  Returns (fst reduced !! 0%nat, set_hashCalls (snd reduced) this).

Definition getRoot (this : t) : outcome (option bytes * t) :=
  if (length (hashes this) =? 0)%nat then
    Returns (Some (TypedArray.zeros (hashSize this)), this)
  else
    match merkleRoot this with
    | Some root => Returns (Some root, this)
    | None => computeMerkleRoot this
    end.

Definition constructor (hashes : list bytes) (hashFunction : bytes -> bytes)
  (hashSize : option nat) : outcome t :=
  let this := {| hashes := hashes; hashFunction := hashFunction;
                 hashSize := default DEFAULT_HASH_SIZE hashSize;
                 merkleRoot := None; hashCalls := [] |} in
  let* root := getRoot this in
  Returns (set_merkleRoot (fst root) (snd root)).

End MerkleTree.

(** ** Block and Transaction *)

(** The abstract classes [Block] and [Transaction] hold an optional buffer;
    [fields] stands for whatever else an object holds ([previous] and
    [transactions] of a block, and the fields of the class that extends the
    abstract one). The abstract method [toBuffer] is an argument of
    [getBuffer]: it returns the bytes together with the object it leaves,
    or throws. An array of bytes is an object and therefore true in a
    condition, also when it is empty: [if (this.buffer)] tests whether the
    field is defined. *)
Module Block.

Record t (S : Type) : Type := mk {
  buffer : option bytes;
  fields : S
}.

Arguments mk {S} buffer fields.
Arguments buffer {S} t.
Arguments fields {S} t.

Definition constructor {S : Type} (fields : S) : t S :=
  {| buffer := None; fields := fields |}.

Definition getBuffer {S : Type} (toBuffer : t S -> outcome (bytes * t S))
  (this : t S) : outcome (bytes * t S) :=
  match buffer this with
  | Some b => Returns (b, this)
  | None =>
      let* rendered := toBuffer this in
      Returns (fst rendered,
               {| buffer := Some (fst rendered);
                  fields := fields (snd rendered) |})
  end.

End Block.

Module Transaction.

Record t (S : Type) : Type := mk {
  buffer : option bytes;
  hash : bytes;
  fields : S
}.

Arguments mk {S} buffer hash fields.
Arguments buffer {S} t.
Arguments hash {S} t.
Arguments fields {S} t.

Definition constructor {S : Type} (buffer : option bytes) (fields : S) : t S :=
  {| buffer := buffer; hash := TypedArray.zeros 0; fields := fields |}.

Definition getBuffer {S : Type} (toBuffer : t S -> outcome (bytes * t S))
  (this : t S) : outcome (bytes * t S) :=
  match buffer this with
  | Some b => Returns (b, this)
  | None =>
      let* rendered := toBuffer this in
      Returns (fst rendered,
               {| buffer := Some (fst rendered);
                  hash := hash (snd rendered);
                  fields := fields (snd rendered) |})
  end.

End Transaction.

(** ** Wallet *)

Module Wallet.

Record t : Type := mk {
  publicKey : bytes;
  privateKey : option bytes
}.

(** The character of a hexadecimal digit, in lower case as
    [toString("hex")] writes it: ["0"] has the code 48 and ["a"] the code
    97. *)
Definition hex_digit (d : Z) : Ascii.ascii :=
  Ascii.ascii_of_nat (Z.to_nat (if d <? 10 then 48 + d else 87 + d)).

(** [Buffer.from(bytes).toString("hex")]: two digits for each byte, the high
    one first. *)
Fixpoint hex (bs : bytes) : String.string :=
  match bs with
  | [] => String.EmptyString
  | b :: bs' =>
      String.String (hex_digit (b / 16))
        (String.String (hex_digit (b mod 16)) (hex bs'))
  end.

Definition toHex (this : t) : String.string := hex (publicKey this).

End Wallet.

(** * The vocabulary of the properties *)

(** The bytes of [a] from index [from] up to, and without, index [to]. *)
Definition bytes_between (a : bytes) (from to : Z) : bytes :=
  take (Z.to_nat (to - from)) (drop (Z.to_nat from) a).

(** The offset that [new Reader(buf, o)] and [new Writer(buf, o)] would both
    store if both classes reset an offset outside of the buffer. *)
Definition offset_reset_by_both (buf : bytes) (o : Z) : Prop :=
  let stored := if decide (0 <= o < Z.of_nat (length buf)) then o else 0 in
  Reader.offset (Reader.constructor buf (Some o)) = stored /\
  Writer.offset (Writer.constructor buf (Some o)) = stored.

(** The four widths of the integer reads and writes. *)
Inductive uint : Type :=
| Uint8
| Uint16
| Uint32
| Uint64.

(** The number of bytes of a width. *)
Definition uint_width (k : uint) : nat :=
  match k with
  | Uint8 => 1
  | Uint16 => 2
  | Uint32 => 4
  | Uint64 => 8
  end.

(** The value of a call that returned. *)
Definition returned {A : Type} (m : outcome A) : option A :=
  match m with
  | Returns a => Some a
  | _ => None
  end.

(** [new Writer(buf, o).writeUintK(v)], then [new Reader(b, o).readUintK()]
    on the buffer [b] that the writer leaves: the value read, if both calls
    return. *)
Definition write_then_read (k : uint) (buf : bytes) (o v : Z) : option Z :=
  let w := Writer.constructor buf (Some o) in
  let read_back (read : Reader.t -> outcome Z * Reader.t)
        (written : outcome Writer.t) :=
    match written with
    | Returns w' =>
        returned (fst (read (Reader.constructor (Writer.buffer w') (Some o))))
    | _ => None
    end in
  match k with
  | Uint8 =>
      fst (Reader.readUint8
             (Reader.constructor (Writer.buffer (Writer.writeUint8 v w))
                (Some o)))
  | Uint16 => read_back Reader.readUint16 (Writer.writeUint16 v w)
  | Uint32 => read_back Reader.readUint32 (Writer.writeUint32 v w)
  | Uint64 => read_back Reader.readUint64 (Writer.writeUint64 v w)
  end.

(** What [readBuffer(n)] is said to do: return the bytes from the offset [p]
    up to [min (p + n) length], fewer than [n] of them whenever [p + n] is
    past the end, and move the offset to [p + n]. *)
Definition reads_up_to_end (r : Reader.t) (n : Z) : Prop :=
  let p := Reader.offset r in
  let len := Z.of_nat (length (Reader.buffer r)) in
  let out := fst (Reader.readBuffer n r) in
  out = bytes_between (Reader.buffer r) p (Z.min (p + n) len) /\
  (len < p + n -> Z.of_nat (length out) < n) /\
  Reader.offset (snd (Reader.readBuffer n r)) = p + n.

(** The sum of the byte lengths of the data of the fields. *)
Definition data_length (fs : list TemplateField.t) : nat :=
  sum_list (map (fun f => Uint8Array.byteLength (TemplateField.data f)) fs).

(** The sum of the widths that the types of the fields declare. *)
Definition declared_width (fs : list TemplateField.t) : nat :=
  sum_list (map TemplateField.width fs).

(** The data of a field is as long as its type declares. *)
Definition exact_data (f : TemplateField.t) : Prop :=
  Uint8Array.byteLength (TemplateField.data f) = TemplateField.width f.

(** The data of a field is at least as long as its type declares. *)
Definition sized (f : TemplateField.t) : Prop :=
  (TemplateField.width f <= Uint8Array.byteLength (TemplateField.data f))%nat.

(** [byteLength] is the sum of the widths that the types declare. *)
Definition byteLength_is_declared (fs : list TemplateField.t) : Prop :=
  Template.byteLength (Template.constructor (Some fs)) = declared_width fs.

(** The field [f] goes through the writer [w] as the first bytes of its data,
    unchanged. *)
Definition emits_leading_data (f : TemplateField.t) (w : Writer.t) : Prop :=
  exists w',
    Template.writeField f w = Returns w' /\
    bytes_between (Writer.buffer w') (Writer.offset w) (Writer.offset w')
      = take (TemplateField.width f)
          (Uint8Array.elements (TemplateField.data f)).

(** What one pass leaves of a list, seen from the list it was given: below
    the counter [i], each hash at an even index is hashed with its right
    neighbour, and each hash at an odd index stays. *)
Definition scanned (f : list Z -> list Z) (i : nat) (hs : list (list Z))
  : list (list Z) :=
  imap (fun k h =>
          if (k <? i)%nat && Nat.even k
          then f (h ++ default [] (hs !! S k))
          else h) hs.

(** Two calls of [getRoot], the caller replacing the list of hashes by [hs']
    in between, return the same root. *)
Definition root_survives (t : MerkleTree.t) (hs' : list (list Z)) : Prop :=
  exists root t1 t2,
    MerkleTree.getRoot t = Returns (root, t1) /\
    MerkleTree.getRoot (MerkleTree.set_hashes hs' t1) = Returns (root, t2).

(** [writeUintK(v)], for each of the four widths. *)
Definition writeUint (k : uint) (v : Z) (w : Writer.t) : outcome Writer.t :=
  match k with
  | Uint8 => Returns (Writer.writeUint8 v w)
  | Uint16 => Writer.writeUint16 v w
  | Uint32 => Writer.writeUint32 v w
  | Uint64 => Writer.writeUint64 v w
  end.

(** The bytes that [toBuffer] writes for a field: the data of a [buffer]
    field as it is, and for a field of an integer type the first bytes of
    the array buffer under its data, as many as the width, in reverse
    order. *)
Definition encoded (f : TemplateField.t) : list Z :=
  match TemplateField.type f with
  | TemplateField.buffer => Uint8Array.elements (TemplateField.data f)
  | _ => rev (take (TemplateField.width f)
                (Uint8Array.buffer (TemplateField.data f)))
  end.

(** The array buffer under the data of a field holds bytes. *)
Definition holds_bytes (f : TemplateField.t) : Prop :=
  Forall is_byte (Uint8Array.buffer (TemplateField.data f)).

(** A field of an integer type whose array buffer is shorter than the width
    of the type. *)
Definition short_view (f : TemplateField.t) : Prop :=
  TemplateField.type f <> TemplateField.buffer /\
  (length (Uint8Array.buffer (TemplateField.data f)) < TemplateField.width f)%nat.

(** * Properties *)

(** ** Fixed-width integers and their bytes *)

Lemma length_le_bytes (n : nat) (v : Z) : length (le_bytes n v) = n.
Proof.
  revert v; induction n as [|n IH]; intros v; simpl; [reflexivity|].
  now rewrite IH.
Qed.

Lemma le_value_le_bytes (n : nat) (v : Z) :
  le_value (le_bytes n v) = v mod 256 ^ Z.of_nat n.
Proof.
  revert v; induction n as [|n IH]; intros v.
  - simpl. now rewrite Z.mod_1_r.
  - cbn [le_bytes le_value]. rewrite IH.
    rewrite Nat2Z.inj_succ, Z.pow_succ_r by lia.
    rewrite Z.rem_mul_r by lia. reflexivity.
Qed.

Lemma le_bytes_le_value (bs : bytes) :
  Forall is_byte bs -> le_bytes (length bs) (le_value bs) = bs.
Proof.
  induction 1 as [|b bs Hb _ IH]; [reflexivity|].
  cbn [length le_bytes le_value]. unfold is_byte in Hb.
  replace (b + 256 * le_value bs) with (b + le_value bs * 256) by lia.
  rewrite Z_mod_plus_full. rewrite Z_div_plus_full by lia.
  rewrite Z.mod_small, Z.div_small by lia.
  f_equal. exact IH.
Qed.

(** Only the residue of [v] modulo [256 ^ n] reaches [le_bytes n v]. *)
Lemma le_bytes_wrap (n : nat) (v : Z) :
  le_bytes n (v - 256 ^ Z.of_nat n) = le_bytes n v.
Proof.
  revert v; induction n as [|n IH]; intros v; [reflexivity|].
  cbn [le_bytes]. rewrite Nat2Z.inj_succ, Z.pow_succ_r by lia.
  replace (v - 256 * 256 ^ Z.of_nat n)
    with (v + (- 256 ^ Z.of_nat n) * 256) by lia.
  rewrite Z_mod_plus_full. rewrite Z_div_plus_full by lia.
  f_equal. apply IH.
Qed.

Lemma le_bytes_to_signed (n : nat) (v : Z) :
  le_bytes n (to_signed n v) = le_bytes n v.
Proof.
  unfold to_signed. destruct (v <? _); [reflexivity|apply le_bytes_wrap].
Qed.

Lemma be_value_snoc (bs : bytes) (b : Z) :
  be_value (bs ++ [b]) = 256 * be_value bs + b.
Proof. unfold be_value. now rewrite fold_left_app. Qed.

Lemma be_value_rev (bs : bytes) : be_value (rev bs) = le_value bs.
Proof.
  induction bs as [|b bs IH]; [reflexivity|].
  cbn [rev le_value]. rewrite be_value_snoc, IH. lia.
Qed.

(** A big-endian signed load followed by a little-endian store of the same
    width reverses the bytes. *)
Lemma le_bytes_be_value (bs : bytes) :
  Forall is_byte bs ->
  le_bytes (length bs) (to_signed (length bs) (be_value bs)) = rev bs.
Proof.
  intros Hbs. rewrite le_bytes_to_signed.
  rewrite <- (rev_involutive bs) at 2. rewrite be_value_rev.
  rewrite <- (length_rev bs). apply le_bytes_le_value.
  now apply Forall_rev.
Qed.

(** ** Data views *)

Lemma in_bounds_true (mem : bytes) (o : Z) (n : nat) :
  DataView.in_bounds mem o n = true <->
  0 <= o /\ o + Z.of_nat n <= Z.of_nat (length mem).
Proof. unfold DataView.in_bounds. rewrite andb_true_iff. lia. Qed.

Lemma length_setUintLE (n : nat) (mem mem' : bytes) (o v : Z) :
  DataView.setUintLE n mem o v = Returns mem' -> length mem' = length mem.
Proof.
  unfold DataView.setUintLE.
  destruct (DataView.in_bounds mem o n) eqn:Hb; [|discriminate].
  apply in_bounds_true in Hb. intros [= <-].
  rewrite !length_app, length_take, length_drop, length_le_bytes. lia.
Qed.

Lemma setUintLE_in_bounds (n : nat) (mem : bytes) (o v : Z) :
  0 <= o -> o + Z.of_nat n <= Z.of_nat (length mem) ->
  DataView.setUintLE n mem o v =
    Returns (take (Z.to_nat o) mem ++ le_bytes n v
             ++ drop (Z.to_nat o + n) mem).
Proof.
  intros Ho Hn. unfold DataView.setUintLE.
  now rewrite (proj2 (in_bounds_true mem o n)).
Qed.

Lemma window_splice (n : nat) (mem new : bytes) (o : Z) :
  0 <= o -> o + Z.of_nat n <= Z.of_nat (length mem) -> length new = n ->
  DataView.window (take (Z.to_nat o) mem ++ new ++ drop (Z.to_nat o + n) mem)
    o n = new.
Proof.
  intros Ho Hn Hnew. unfold DataView.window.
  rewrite drop_app_length'; [|rewrite length_take; lia].
  rewrite take_app_length'; [reflexivity|now symmetry].
Qed.

(** A little-endian store followed by a load of the same width at the same
    place gives the stored value, reduced to the width. *)
Lemma getUintLE_setUintLE (n : nat) (mem : bytes) (o v : Z) :
  0 <= o -> o + Z.of_nat n <= Z.of_nat (length mem) ->
  exists mem',
    DataView.setUintLE n mem o v = Returns mem' /\
    DataView.getUintLE n mem' o = Returns (v mod 256 ^ Z.of_nat n).
Proof.
  intros Ho Hn. eexists. split; [now apply setUintLE_in_bounds|].
  unfold DataView.getUintLE.
  rewrite (proj2 (in_bounds_true _ o n)).
  - rewrite window_splice by (auto using length_le_bytes).
    now rewrite le_value_le_bytes.
  - rewrite !length_app, length_take, length_drop, length_le_bytes. lia.
Qed.

(** ** Typed arrays *)

Lemma length_set (a : bytes) (i v : Z) :
  length (TypedArray.set a i v) = length a.
Proof.
  unfold TypedArray.set. destruct (_ && _); [apply length_insert|reflexivity].
Qed.

Lemma get_set (a : bytes) (i v : Z) :
  0 <= i < Z.of_nat (length a) ->
  TypedArray.get (TypedArray.set a i v) i = Some (v mod 256).
Proof.
  intros Hi. unfold TypedArray.get, TypedArray.set.
  destruct (Z.leb_spec 0 i); [|lia].
  destruct (Z.ltb_spec i (Z.of_nat (length a))); [|lia]. cbn [andb].
  apply list_lookup_insert_eq. lia.
Qed.

Lemma subarray_forward (a : bytes) (p n : Z) :
  0 <= p -> 0 <= n ->
  TypedArray.subarray a p (p + n) =
    bytes_between a p (Z.min (p + n) (Z.of_nat (length a))).
Proof.
  intros Hp Hn. unfold TypedArray.subarray, TypedArray.relative, bytes_between.
  destruct (Z.ltb_spec p 0); [lia|].
  destruct (Z.ltb_spec (p + n) 0); [lia|].
  destruct (Z_le_gt_dec p (Z.of_nat (length a))) as [Hle|Hgt].
  - rewrite (Z.min_l p) by lia. f_equal. lia.
  - rewrite (drop_ge a (Z.to_nat p)) by lia.
    rewrite (drop_ge a (Z.to_nat (Z.min p _))) by lia.
    now rewrite !take_nil.
Qed.

(** ** The cursors *)

Lemma Reader_constructor_offset (buf : bytes) (o : Z) :
  0 <= o < Z.of_nat (length buf) ->
  Reader.offset (Reader.constructor buf (Some o)) = o.
Proof.
  intros Ho. cbn.
  destruct (Z.ltb_spec o 0); [lia|].
  destruct (Z.geb_spec o (Z.of_nat (length buf))); [lia|]. reflexivity.
Qed.

Lemma Reader_constructor_buffer (buf : bytes) (o : option Z) :
  Reader.buffer (Reader.constructor buf o) = buf.
Proof. reflexivity. Qed.

Lemma Writer_writeBuffer_loop_offset (buf : bytes) (count : nat) (i : Z)
  (w : Writer.t) :
  Writer.offset (Writer.writeBuffer_loop buf count i w) =
    Writer.offset w + Z.of_nat count.
Proof.
  revert i w; induction count as [|count IH]; intros i w.
  - cbn. lia.
  - cbn [Writer.writeBuffer_loop]. rewrite IH. cbn. lia.
Qed.

Lemma Writer_writeBuffer_loop_length (buf : bytes) (count : nat) (i : Z)
  (w : Writer.t) :
  length (Writer.buffer (Writer.writeBuffer_loop buf count i w)) =
    length (Writer.buffer w).
Proof.
  revert i w; induction count as [|count IH]; intros i w; [reflexivity|].
  cbn [Writer.writeBuffer_loop]. rewrite IH. cbn. apply length_set.
Qed.

(** Every write of the [Writer] moves the offset by the number of bytes
    written, from whatever offset the writer was constructed with. *)
Lemma Writer_offset_after_write (buf : bytes) (o v : Z) :
  let w := Writer.constructor buf (Some o) in
  Writer.offset (Writer.writeUint8 v w) = o + 1 /\
  (forall w', Writer.writeUint16 v w = Returns w' -> Writer.offset w' = o + 2) /\
  (forall w', Writer.writeUint32 v w = Returns w' -> Writer.offset w' = o + 4) /\
  (forall w', Writer.writeUint64 v w = Returns w' -> Writer.offset w' = o + 8) /\
  (forall src : bytes,
     Writer.offset (Writer.writeBuffer src None w) = o + Z.of_nat (length src)).
Proof.
  cbn zeta. split; [reflexivity|].
  unfold Writer.writeUint16, Writer.writeUint32, Writer.writeUint64.
  repeat split.
  1-3: intros w'; destruct (DataView.setUintLE _ _ _ _);
       cbn; [intros [= <-]; reflexivity|discriminate..].
  intros src. unfold Writer.writeBuffer.
  rewrite Writer_writeBuffer_loop_offset. cbn. lia.
Qed.

(** Every read of the [Reader] moves the offset by the number of bytes
    asked for, from an offset inside of the buffer. *)
Lemma Reader_offset_after_read (buf : bytes) (o n : Z) :
  0 <= o < Z.of_nat (length buf) ->
  let r := Reader.constructor buf (Some o) in
  Reader.offset (snd (Reader.readUint8 r)) = o + 1 /\
  Reader.offset (snd (Reader.readUint16 r)) = o + 2 /\
  Reader.offset (snd (Reader.readUint32 r)) = o + 4 /\
  Reader.offset (snd (Reader.readUint64 r)) = o + 8 /\
  Reader.offset (snd (Reader.readBuffer n r)) = o + n.
Proof.
  intros Ho r. pose proof (Reader_constructor_offset buf o Ho) as Hr.
  fold r in Hr. clearbody r. cbn. rewrite Hr. auto.
Qed.

(** *** Construction of a cursor *)

(** The [Writer] keeps the offset 1 of a buffer of one byte, as
    [tests/02-buffer/Writer.spec.ts] expects of it. *)
Lemma Writer_keeps_offset_at_end : ~ offset_reset_by_both [0] 1.
Proof. intros [_ Hw]. vm_compute in Hw. discriminate. Qed.

(** C4, amended. [new Reader(buf, o)] stores 0 for a negative [o] and for an
    [o] greater than the length of [buf], and keeps an [o] inside of the
    buffer; [new Writer(buf, o)] keeps every [o]. Neither can throw: both are
    total functions into the record of the class. *)
Theorem constructor_offset (buf : bytes) (o : Z) :
  (o < 0 \/ Z.of_nat (length buf) < o ->
     Reader.offset (Reader.constructor buf (Some o)) = 0) /\
  (0 <= o < Z.of_nat (length buf) ->
     Reader.offset (Reader.constructor buf (Some o)) = o) /\
  Writer.offset (Writer.constructor buf (Some o)) = o.
Proof.
  split; [|split; [apply Reader_constructor_offset|reflexivity]].
  intros Ho. cbn.
  destruct (Z.ltb_spec o 0); [reflexivity|].
  destruct (Z.geb_spec o (Z.of_nat (length buf))); [reflexivity|lia].
Qed.

Lemma constructor_offset_witness :
  Reader.offset (Reader.constructor [1; 2; 3] (Some 7)) = 0 /\
  Reader.offset (Reader.constructor [1; 2; 3] (Some (-1))) = 0 /\
  Reader.offset (Reader.constructor [1; 2; 3] (Some 2)) = 2 /\
  Writer.offset (Writer.constructor [1; 2; 3] (Some 7)) = 7.
Proof.
  split; [apply (constructor_offset [1; 2; 3] 7); simpl; lia|].
  split; [apply (constructor_offset [1; 2; 3] (-1)); simpl; lia|].
  split; [apply (constructor_offset [1; 2; 3] 2); simpl; lia|].
  apply (constructor_offset [1; 2; 3] 7).
Defined.

(** *** Writing, then reading *)

Lemma wide_roundtrip (n : nat) (buf : bytes) (o v : Z) :
  (0 < n)%nat -> 0 <= o -> o + Z.of_nat n <= Z.of_nat (length buf) ->
  0 <= v < 256 ^ Z.of_nat n ->
  exists mem',
    DataView.setUintLE n buf o v = Returns mem' /\
    let r := Reader.advance (Z.of_nat n) (Reader.constructor mem' (Some o)) in
    DataView.getUintLE n (Reader.buffer r) (Reader.offset r - Z.of_nat n)
      = Returns v.
Proof.
  intros Hpos Ho Hn Hv.
  destruct (getUintLE_setUintLE n buf o v Ho Hn) as (mem' & Hset & Hget).
  exists mem'. split; [exact Hset|].
  pose proof (length_setUintLE _ _ _ _ _ Hset) as Hlen.
  cbn zeta. cbn [Reader.advance Reader.buffer Reader.offset].
  rewrite Reader_constructor_offset by lia.
  rewrite Reader_constructor_buffer.
  replace (o + Z.of_nat n - Z.of_nat n) with o by lia.
  rewrite Hget. now rewrite Z.mod_small.
Qed.

(** C6. For every width K of 8, 16, 32 and 64 bits, every buffer, every
    offset [o] that leaves room for K/8 bytes and every unsigned value [v] of
    K bits, [writeUintK(v)] at [o] followed by [readUintK()] at [o] reads
    [v]. *)
Theorem write_read_roundtrip (k : uint) (buf : bytes) (o v : Z) :
  0 <= o ->
  o + Z.of_nat (uint_width k) <= Z.of_nat (length buf) ->
  0 <= v < 2 ^ (8 * Z.of_nat (uint_width k)) ->
  write_then_read k buf o v = Some v.
Proof.
  intros Ho Hn Hv. destruct k; unfold write_then_read; cbv beta zeta.
  - cbn in Hn, Hv. cbn [fst Reader.readUint8].
    rewrite Reader_constructor_offset, Reader_constructor_buffer;
      cbn [Writer.writeUint8 Writer.buffer Writer.constructor Writer.offset
           default from_option id]; rewrite ?length_set; [|lia].
    rewrite get_set by lia. now rewrite Z.mod_small.
  - destruct (wide_roundtrip 2 buf o v) as (mem' & Hset & Hget);
      [lia|exact Ho|exact Hn|exact Hv|].
    unfold Writer.writeUint16.
    cbn [Writer.constructor Writer.buffer Writer.offset default from_option id].
    rewrite Hset. cbn [bind Writer.buffer]. unfold Reader.readUint16.
    cbn [fst]. cbn zeta in Hget. change (Z.of_nat 2) with 2 in Hget.
    now rewrite Hget.
  - destruct (wide_roundtrip 4 buf o v) as (mem' & Hset & Hget);
      [lia|exact Ho|exact Hn|exact Hv|].
    unfold Writer.writeUint32.
    cbn [Writer.constructor Writer.buffer Writer.offset default from_option id].
    rewrite Hset. cbn [bind Writer.buffer]. unfold Reader.readUint32.
    cbn [fst]. cbn zeta in Hget. change (Z.of_nat 4) with 4 in Hget.
    now rewrite Hget.
  - destruct (wide_roundtrip 8 buf o v) as (mem' & Hset & Hget);
      [lia|exact Ho|exact Hn|exact Hv|].
    unfold Writer.writeUint64.
    cbn [Writer.constructor Writer.buffer Writer.offset default from_option id].
    rewrite Hset. cbn [bind Writer.buffer]. unfold Reader.readUint64.
    cbn [fst]. cbn zeta in Hget. change (Z.of_nat 8) with 8 in Hget.
    now rewrite Hget.
Qed.

Lemma write_read_roundtrip_witness :
  write_then_read Uint32 [9; 9; 9; 9; 9; 9] 1 4000000000 = Some 4000000000.
Proof.
  apply (write_read_roundtrip Uint32 [9; 9; 9; 9; 9; 9] 1 4000000000);
    simpl; lia.
Defined.

(** *** The offset after one read or write *)

(** C9, at the input on which the code departs from it. A [Reader] that is
    constructed at the end of a buffer of one byte starts at 0, so that a
    read of no byte leaves it at 0 and not at 1; the [Writer] of the same
    buffer and offset is left at 1. *)
Theorem Reader_at_end_restarts :
  let r := Reader.constructor [0] (Some 1) in
  let w := Writer.constructor [0] (Some 1) in
  Reader.offset r = 0 /\
  Reader.offset (snd (Reader.readBuffer 0 r)) = 0 /\
  Writer.offset (Writer.writeBuffer [] None w) = 1.
Proof. repeat split. Qed.

(** *** Reading past the end *)

(** A reader that has been moved past the end reads no byte when it is asked
    for none: that is not fewer than none. Asked for a negative size at the
    start of three bytes, a reader returns the first two of them. *)
Lemma read_nothing_past_end :
  ~ reads_up_to_end (snd (Reader.readBuffer 2 (Reader.constructor [7] None))) 0
  /\ fst (Reader.readBuffer (-1) (Reader.constructor [1; 2; 3] None)) = [1; 2]
  /\ ~ reads_up_to_end (Reader.constructor [1; 2; 3] None) (-1).
Proof.
  split; [|split; [reflexivity|]].
  - intros (_ & Hlt & _). vm_compute in Hlt. now specialize (Hlt eq_refl).
  - intros (Hout & _). vm_compute in Hout. discriminate.
Qed.

(** C10, amended. For a reader at the offset [p >= 0] and a size [n >= 0],
    [readBuffer(n)] is total: it returns the bytes from [p] up to
    [min (p + n) length], which are fewer than [n] whenever [p + n] is past
    the end and [n] is not 0, and it moves the offset to [p + n], past the
    end or not, leaving the buffer as it is. *)
Theorem readBuffer_short_read (r : Reader.t) (n : Z) :
  0 <= Reader.offset r -> 0 <= n ->
  let p := Reader.offset r in
  let len := Z.of_nat (length (Reader.buffer r)) in
  let out := fst (Reader.readBuffer n r) in
  let r' := snd (Reader.readBuffer n r) in
  out = bytes_between (Reader.buffer r) p (Z.min (p + n) len) /\
  (len < p + n -> 0 < n -> Z.of_nat (length out) < n) /\
  Reader.offset r' = p + n /\
  Reader.buffer r' = Reader.buffer r.
Proof.
  intros Hp Hn. cbn zeta. unfold Reader.readBuffer.
  cbn [fst snd Reader.advance Reader.offset Reader.buffer].
  replace (Reader.offset r + n - n) with (Reader.offset r) by lia.
  rewrite subarray_forward by assumption.
  repeat split. intros Hpast Hpos. unfold bytes_between.
  rewrite length_take, length_drop. lia.
Qed.

Lemma readBuffer_short_read_witness :
  fst (Reader.readBuffer 5 (Reader.constructor [1; 2; 3] (Some 1))) = [2; 3] /\
  Reader.offset
    (snd (Reader.readBuffer 5 (Reader.constructor [1; 2; 3] (Some 1)))) = 6.
Proof.
  destruct (readBuffer_short_read (Reader.constructor [1; 2; 3] (Some 1)) 5)
    as (Hout & _ & Hoff & _); [simpl; lia|lia|].
  split; [exact Hout|exact Hoff].
Defined.

(** ** Template *)

Lemma fold_left_add (l : list nat) (a : nat) :
  fold_left (fun prev cur => (prev + cur)%nat) l a = (a + sum_list l)%nat.
Proof.
  revert a; induction l as [|x l IH]; intros a; cbn; [lia|].
  rewrite IH. lia.
Qed.

Lemma Template_constructor_byteLength (fs : list TemplateField.t) :
  Template.byteLength (Template.constructor (Some fs)) = data_length fs.
Proof. cbn. now rewrite fold_left_add. Qed.

Lemma set_splice (a : bytes) (o v : Z) :
  0 <= o -> o + 1 <= Z.of_nat (length a) ->
  TypedArray.set a o v =
    take (Z.to_nat o) a ++ le_bytes 1 v ++ drop (Z.to_nat o + 1) a.
Proof.
  intros Ho Hlen. unfold TypedArray.set.
  destruct (Z.leb_spec 0 o); [|lia].
  destruct (Z.ltb_spec o (Z.of_nat (length a))); [|lia]. cbn [andb].
  rewrite insert_take_drop by lia. now rewrite Nat.add_1_r.
Qed.

Lemma getIntBE_in_bounds (n : nat) (view : bytes) :
  (n <= length view)%nat ->
  DataView.getIntBE n view 0 = Returns (to_signed n (be_value (take n view))).
Proof.
  intros Hn. unfold DataView.getIntBE.
  rewrite (proj2 (in_bounds_true view 0 n)) by lia. reflexivity.
Qed.

Lemma length_buffer_ge (a : Uint8Array.t) :
  (Uint8Array.byteLength a <= length (Uint8Array.buffer a))%nat.
Proof.
  unfold Uint8Array.byteLength, Uint8Array.buffer. rewrite !length_app. lia.
Qed.

(** What [toBuffer] does with a field of an integer type, from the load to
    the store. *)
Lemma writeField_integer (f : TemplateField.t) (w : Writer.t) :
  TemplateField.type f <> TemplateField.buffer ->
  (TemplateField.width f <= length (Uint8Array.buffer (TemplateField.data f)))%nat ->
  0 <= Writer.offset w ->
  Writer.offset w + Z.of_nat (TemplateField.width f)
    <= Z.of_nat (length (Writer.buffer w)) ->
  let n := TemplateField.width f in
  let o := Z.to_nat (Writer.offset w) in
  let v := to_signed n
             (be_value (take n (Uint8Array.buffer (TemplateField.data f)))) in
  Template.writeField f w =
    Returns {| Writer.buffer :=
                 take o (Writer.buffer w) ++ le_bytes n v
                 ++ drop (o + n) (Writer.buffer w);
               Writer.offset := Writer.offset w + Z.of_nat n;
               Writer.size := Writer.size w |}.
Proof.
  unfold Template.writeField, TemplateField.width.
  destruct (TemplateField.type f); intros Hk Hview Ho Hroom; [congruence|..];
    cbn zeta; rewrite getIntBE_in_bounds by exact Hview; cbn [bind].
  - unfold Writer.writeUint8. now rewrite set_splice.
  - unfold Writer.writeUint16. now rewrite setUintLE_in_bounds.
  - unfold Writer.writeUint32. now rewrite setUintLE_in_bounds.
  - unfold Writer.writeUint64. now rewrite setUintLE_in_bounds.
Qed.

(** Each field leaves the writer's buffer as long as it was. *)
Lemma writeField_length (f : TemplateField.t) (w w' : Writer.t) :
  Template.writeField f w = Returns w' ->
  length (Writer.buffer w') = length (Writer.buffer w).
Proof.
  unfold Template.writeField.
  destruct (TemplateField.type f).
  - intros [= <-]. unfold Writer.writeBuffer.
    apply Writer_writeBuffer_loop_length.
  - destruct (DataView.getIntBE _ _ _); [|discriminate..].
    intros [= <-]. apply length_set.
  - destruct (DataView.getIntBE _ _ _) as [v| |]; [|discriminate..].
    cbn [bind]. unfold Writer.writeUint16.
    destruct (DataView.setUintLE _ _ _ _) eqn:Hset; [|discriminate..].
    intros [= <-]. now apply length_setUintLE in Hset.
  - destruct (DataView.getIntBE _ _ _) as [v| |]; [|discriminate..].
    cbn [bind]. unfold Writer.writeUint32.
    destruct (DataView.setUintLE _ _ _ _) eqn:Hset; [|discriminate..].
    intros [= <-]. now apply length_setUintLE in Hset.
  - destruct (DataView.getIntBE _ _ _) as [v| |]; [|discriminate..].
    cbn [bind]. unfold Writer.writeUint64.
    destruct (DataView.setUintLE _ _ _ _) eqn:Hset; [|discriminate..].
    intros [= <-]. now apply length_setUintLE in Hset.
Qed.

Lemma toBuffer_loop_length (fs : list TemplateField.t) (w w' : Writer.t) :
  Template.toBuffer_loop fs w = Returns w' ->
  length (Writer.buffer w') = length (Writer.buffer w).
Proof.
  revert w; induction fs as [|f fs IH]; intros w; cbn.
  - now intros [= <-].
  - destruct (Template.writeField f w) as [w1| |] eqn:Hf; [|discriminate..].
    cbn [bind]. intros Hrest. rewrite (IH _ Hrest).
    now apply writeField_length in Hf.
Qed.

(** A field whose data is long enough is written, and moves the writer by
    its width. *)
Lemma writeField_returns (f : TemplateField.t) (w : Writer.t) :
  sized f -> 0 <= Writer.offset w ->
  Writer.offset w + Z.of_nat (TemplateField.width f)
    <= Z.of_nat (length (Writer.buffer w)) ->
  exists w', Template.writeField f w = Returns w' /\
             Writer.offset w' = Writer.offset w + Z.of_nat (TemplateField.width f).
Proof.
  intros Hsized Ho Hroom.
  assert (TemplateField.type f = TemplateField.buffer \/
          TemplateField.type f <> TemplateField.buffer) as [Hk|Hk]
    by (destruct (TemplateField.type f); auto; right; discriminate).
  - unfold Template.writeField, TemplateField.width in *. rewrite Hk.
    eexists. split; [reflexivity|]. unfold Writer.writeBuffer.
    rewrite Writer_writeBuffer_loop_offset. cbn.
    unfold Uint8Array.byteLength. lia.
  - eexists. split.
    + apply writeField_integer; try assumption.
      pose proof (length_buffer_ge (TemplateField.data f)).
      unfold sized in Hsized. lia.
    + reflexivity.
Qed.

Lemma toBuffer_loop_returns (fs : list TemplateField.t) (w : Writer.t) :
  Forall sized fs -> 0 <= Writer.offset w ->
  Writer.offset w + Z.of_nat (data_length fs)
    <= Z.of_nat (length (Writer.buffer w)) ->
  exists w', Template.toBuffer_loop fs w = Returns w'.
Proof.
  intros Hfs; revert w; induction Hfs as [|f fs Hf _ IH]; intros w Ho Hroom.
  - now exists w.
  - unfold data_length in Hroom. cbn in Hroom. fold (data_length fs) in Hroom.
    unfold sized in Hf.
    destruct (writeField_returns f w Hf Ho) as (w1 & Hw1 & Ho1); [lia|].
    cbn [Template.toBuffer_loop]. rewrite Hw1. cbn [bind].
    apply IH; [lia|]. rewrite (writeField_length _ _ _ Hw1). lia.
Qed.

Lemma length_allocUnsafe (junk : nat -> Z) (n : nat) :
  length (Template.allocUnsafe junk n) = n.
Proof. unfold Template.allocUnsafe. now rewrite length_map, length_seq. Qed.

(** A [uint8] field with two bytes of data counts for two bytes. *)
Lemma byteLength_counts_data :
  ~ byteLength_is_declared
      [TemplateField.mk TemplateField.uint8 (Uint8Array.of_list [1; 2])].
Proof. intros H. vm_compute in H. discriminate. Qed.

(** C2, amended. [byteLength] is the sum of the byte lengths of the data of
    the fields, which is the sum of the declared widths when the data of
    every field is as long as its type declares; a buffer that [toBuffer]
    returns has [byteLength] bytes, and [toBuffer] returns one when the data
    of every field is at least as long as its type declares. *)
Theorem Template_byteLength (fs : list TemplateField.t) (junk : nat -> Z) :
  let t := Template.constructor (Some fs) in
  Template.byteLength t = data_length fs /\
  (Forall exact_data fs -> Template.byteLength t = declared_width fs) /\
  (forall b, Template.toBuffer junk t = Returns b ->
             length b = Template.byteLength t) /\
  (Forall sized fs ->
   exists b, Template.toBuffer junk t = Returns b /\
             length b = Template.byteLength t).
Proof.
  cbn zeta.
  assert (Hlen : forall b,
    Template.toBuffer junk (Template.constructor (Some fs)) = Returns b ->
    length b = Template.byteLength (Template.constructor (Some fs))).
  { intros b. unfold Template.toBuffer.
    destruct (Template.toBuffer_loop _ _) as [w'| |] eqn:Hloop;
      [|discriminate..].
    cbn [bind]. intros [= <-]. apply toBuffer_loop_length in Hloop.
    rewrite Hloop. cbn [Writer.constructor Writer.buffer].
    apply length_allocUnsafe. }
  split; [apply Template_constructor_byteLength|].
  split; [|split; [exact Hlen|]].
  - intros Hexact. rewrite Template_constructor_byteLength.
    unfold data_length, declared_width. f_equal. clear Hlen.
    induction Hexact as [|f fs' Hf _ IH]; [reflexivity|].
    unfold exact_data in Hf. cbn [map]. cbv beta. now rewrite Hf, IH.
  - intros Hsized.
    destruct (toBuffer_loop_returns fs
                (Writer.constructor
                   (Template.allocUnsafe junk
                      (Template.byteLength (Template.constructor (Some fs))))
                   None) Hsized) as (w' & Hw').
    + cbn. lia.
    + cbn [Writer.constructor Writer.buffer Writer.offset default from_option
             id].
      rewrite length_allocUnsafe, Template_constructor_byteLength. lia.
    + assert (Hb : Template.toBuffer junk (Template.constructor (Some fs))
                   = Returns (Writer.buffer w')).
      { unfold Template.toBuffer. cbn [Template.fields Template.constructor
          default from_option id] in *. now rewrite Hw'. }
      eexists. split; [exact Hb|]. now apply Hlen.
Qed.

Lemma Template_byteLength_witness :
  let fs := [TemplateField.mk TemplateField.uint8 (Uint8Array.of_list [1]);
             TemplateField.mk TemplateField.uint16 (Uint8Array.of_list [3; 2]);
             TemplateField.mk TemplateField.buffer (Uint8Array.of_list [8; 9; 10])] in
  Template.byteLength (Template.constructor (Some fs)) = declared_width fs /\
  exists b, Template.toBuffer (fun _ => 0) (Template.constructor (Some fs))
            = Returns b /\
            length b = Template.byteLength (Template.constructor (Some fs)).
Proof.
  intros fs.
  destruct (Template_byteLength fs (fun _ => 0)) as (_ & Hdecl & _ & Hret).
  split.
  - apply Hdecl. subst fs. repeat (constructor; [vm_compute; lia|]).
    constructor.
  - apply Hret. subst fs. repeat (constructor; [vm_compute; lia|]).
    constructor.
Defined.

(** *** The bytes of an integer field *)

(** The two bytes of a [uint16] field come out swapped, as
    [tests/02-buffer/Template.spec.ts] expects of them. *)
Lemma uint16_bytes_swapped :
  let f := TemplateField.mk TemplateField.uint16 (Uint8Array.of_list [1; 2]) in
  Template.toBuffer (fun _ => 0) (Template.constructor (Some [f]))
    = Returns [2; 1] /\
  ~ emits_leading_data f (Writer.constructor [0; 0] None).
Proof.
  split; [reflexivity|].
  intros (w' & Hw & Hb). vm_compute in Hw. injection Hw as <-.
  vm_compute in Hb. discriminate.
Qed.

(** C5, amended. For a field of an integer type of width N whose data has at
    least N bytes, [toBuffer] loads the first N bytes of the array buffer
    under the data (the first N bytes of the data when the data starts at
    byte 0 of its array buffer) as a big-endian signed integer and hands it
    to the writer, which stores it little-endian: the N bytes written are
    those N bytes in reverse order, which is the byte itself for [uint8]. *)
Theorem toBuffer_reverses_integer_bytes (f : TemplateField.t) (w : Writer.t) :
  TemplateField.type f <> TemplateField.buffer ->
  sized f ->
  Forall is_byte (Uint8Array.buffer (TemplateField.data f)) ->
  0 <= Writer.offset w ->
  Writer.offset w + Z.of_nat (TemplateField.width f)
    <= Z.of_nat (length (Writer.buffer w)) ->
  let n := TemplateField.width f in
  let o := Z.to_nat (Writer.offset w) in
  let view := Uint8Array.buffer (TemplateField.data f) in
  DataView.getIntBE n view 0
    = Returns (to_signed n (be_value (take n view))) /\
  (exists w',
     Template.writeField f w = Returns w' /\
     Writer.offset w' = Writer.offset w + Z.of_nat n /\
     Writer.buffer w' =
       take o (Writer.buffer w) ++ rev (take n view)
       ++ drop (o + n) (Writer.buffer w) /\
     bytes_between (Writer.buffer w') (Writer.offset w) (Writer.offset w')
       = rev (take n view)) /\
  (Uint8Array.byteOffset (TemplateField.data f) = 0%nat ->
   take n view = take n (Uint8Array.elements (TemplateField.data f))).
Proof.
  intros Hk Hsized Hbytes Ho Hroom n o view.
  assert (Hview : (n <= length view)%nat).
  { pose proof (length_buffer_ge (TemplateField.data f)).
    unfold sized in Hsized. subst n view. lia. }
  assert (Hsrc : length (take n view) = n) by (rewrite length_take; lia).
  assert (Hrev : le_bytes n (to_signed n (be_value (take n view)))
                 = rev (take n view)).
  { rewrite <- Hsrc at 1 2. apply le_bytes_be_value.
    now apply Forall_take. }
  split; [now apply getIntBE_in_bounds|]. split.
  - eexists. split; [now apply writeField_integer|].
    cbn [Writer.offset Writer.buffer]. fold n o view. rewrite Hrev.
    split; [reflexivity|]. split; [reflexivity|].
    unfold bytes_between.
    replace (Z.to_nat (Writer.offset w + Z.of_nat n - Writer.offset w))
      with n by lia.
    fold o. rewrite drop_app_length'; [|rewrite length_take; lia].
    rewrite take_app_length'; [reflexivity|].
    now rewrite length_rev, Hsrc.
  - intros Hoff. subst view. unfold Uint8Array.buffer.
    unfold Uint8Array.byteOffset in Hoff.
    apply nil_length_inv in Hoff. rewrite Hoff. cbn [app].
    apply take_app_le. exact Hsized.
Qed.

Lemma toBuffer_reverses_integer_bytes_witness :
  Template.writeField
    (TemplateField.mk TemplateField.uint32 (Uint8Array.of_list [7; 6; 5; 4]))
    (Writer.constructor [0; 0; 0; 0; 0] (Some 1))
  = Returns (Writer.mk [0; 4; 5; 6; 7] 5 5).
Proof.
  destruct (toBuffer_reverses_integer_bytes
              (TemplateField.mk TemplateField.uint32
                 (Uint8Array.of_list [7; 6; 5; 4]))
              (Writer.constructor [0; 0; 0; 0; 0] (Some 1)))
    as (_ & (w' & Hw & Hoff & Hbuf & _) & _).
  - discriminate.
  - vm_compute. lia.
  - simpl. repeat (constructor; [unfold is_byte; lia|]).
    constructor.
  - cbn. lia.
  - cbn. lia.
  - rewrite Hw. f_equal. destruct w' as [b o' s].
    cbn [Writer.offset Writer.buffer] in Hoff, Hbuf. subst b o'.
    vm_compute in Hw. now injection Hw as <-.
Defined.

(** ** MerkleTree *)

(** Division and remainder by 2 on lengths go to [lia] as their equations. *)
Ltac Zify.zify_post_hook ::= Z.to_euclidean_division_equations.

Lemma length_pop (hs : list (list Z)) :
  length (MerkleTree.pop hs) = (length hs - 1)%nat.
Proof. unfold MerkleTree.pop. rewrite length_take. lia. Qed.

(** Entered with a counter inside of the list, the [for] loop never reads an
    [undefined] hash: it returns, one hash shorter for each pair. *)
Lemma forLoop_returns (f : list Z -> list Z) (i : nat) :
  forall hs calls : list (list Z),
    (i <= length hs)%nat ->
    exists hs' calls',
      MerkleTree.forLoop f i hs calls = Returns (hs', calls') /\
      length hs' = (length hs - i / 2)%nat.
Proof.
  induction i as [i IH] using (well_founded_induction lt_wf).
  intros hs calls Hi. destruct i as [|[|i']].
  - exists hs, calls. split; [reflexivity|]. cbn. lia.
  - exists hs, calls. split; [reflexivity|]. cbn. lia.
  - cbn [MerkleTree.forLoop].
    destruct (lookup_lt_is_Some_2 hs i') as [l Hl]; [lia|].
    destruct (lookup_lt_is_Some_2 hs (S i')) as [r Hr]; [lia|].
    rewrite Hl, Hr.
    destruct (IH i' ltac:(lia)
                (MerkleTree.pop (<[i' := f (l ++ r)]> hs))
                (calls ++ [l ++ r])) as (hs' & calls' & Hloop & Hlen).
    + rewrite length_pop, length_insert. lia.
    + exists hs', calls'. split; [exact Hloop|].
      rewrite Hlen, length_pop, length_insert. lia.
Qed.

(** The [while] loop returns on a fuel of the length of the list, with at
    most one hash, and with one if it was given any. *)
Lemma whileLoop_returns (f : list Z -> list Z) (fuel : nat) :
  forall hs calls : list (list Z),
    (length hs <= fuel)%nat ->
    exists hs' calls',
      MerkleTree.whileLoop fuel f hs calls = Returns (hs', calls') /\
      (length hs' <= 1)%nat /\
      (hs = [] -> hs' = [] /\ calls' = calls) /\
      (hs <> [] -> length hs' = 1%nat).
Proof.
  induction fuel as [|fuel IH]; intros hs calls Hfuel.
  - destruct hs; [|cbn in Hfuel; lia].
    exists [], calls. cbn. repeat split; [lia|congruence].
  - cbn [MerkleTree.whileLoop].
    destruct (Nat.ltb_spec 1 (length hs)) as [Hlong|Hshort].
    + destruct (forLoop_returns f (length hs) hs calls (le_n _))
        as (hs1 & calls1 & Hpass & Hlen1).
      rewrite Hpass. cbn [bind fst snd].
      destruct (IH hs1 calls1) as (hs' & calls' & Hloop & Hle & _ & Hone);
        [lia|].
      exists hs', calls'. split; [exact Hloop|]. split; [exact Hle|].
      split; [intros ->; cbn [length] in Hlong; lia|].
      intros _. apply Hone. intros ->. cbn [length] in Hlen1. lia.
    + exists hs, calls. split; [reflexivity|]. split; [exact Hshort|].
      split; [auto|]. intros Hne. destruct hs; [congruence|].
      cbn [length] in *. lia.
Qed.

Lemma padded_even (hs : list (list Z)) :
  (length (MerkleTree.padded hs) mod 2 = 0)%nat.
Proof.
  unfold MerkleTree.padded.
  destruct (Nat.eqb_spec (length hs mod 2) 0) as [Heven|Hodd]; cbn [negb].
  - exact Heven.
  - destruct (lookup_lt_is_Some_2 hs (length hs - 1)) as [h Hh]; [lia|].
    rewrite Hh, length_app. cbn [length]. lia.
Qed.

Lemma padded_of_even (hs : list (list Z)) :
  (length hs mod 2 = 0)%nat -> MerkleTree.padded hs = hs.
Proof.
  intros Heven. unfold MerkleTree.padded.
  now destruct (Nat.eqb_spec (length hs mod 2) 0).
Qed.

Lemma padded_of_odd (hs : list (list Z)) :
  (length hs mod 2 <> 0)%nat ->
  exists h, last hs = Some h /\ MerkleTree.padded hs = hs ++ [h].
Proof.
  intros Hodd. unfold MerkleTree.padded.
  destruct (Nat.eqb_spec (length hs mod 2) 0) as [Heven|_]; [lia|].
  cbn [negb].
  destruct (lookup_lt_is_Some_2 hs (length hs - 1)) as [h Hh]; [lia|].
  rewrite Hh. exists h. split; [|reflexivity].
  rewrite last_lookup. rewrite <- Hh. f_equal. lia.
Qed.

Lemma padded_nil_inv (hs : list (list Z)) :
  MerkleTree.padded hs = [] -> hs = [].
Proof.
  unfold MerkleTree.padded. destruct (negb _); [|auto].
  destruct (hs !! _); [|auto]. intros H. now apply app_eq_nil in H.
Qed.

(** [computeMerkleRoot] returns, and leaves the list of hashes padded. *)
Lemma computeMerkleRoot_returns (this : MerkleTree.t) :
  exists root calls,
    MerkleTree.computeMerkleRoot this =
      Returns (root, MerkleTree.set_hashCalls calls
                       (MerkleTree.set_hashes
                          (MerkleTree.padded (MerkleTree.hashes this)) this)) /\
    (MerkleTree.hashes this <> [] -> is_Some root).
Proof.
  unfold MerkleTree.computeMerkleRoot. cbn zeta.
  cbn [MerkleTree.set_hashes MerkleTree.hashes MerkleTree.hashFunction
       MerkleTree.hashCalls].
  destruct (whileLoop_returns (MerkleTree.hashFunction this)
              (length (MerkleTree.padded (MerkleTree.hashes this)))
              (MerkleTree.padded (MerkleTree.hashes this))
              (MerkleTree.hashCalls this) (le_n _))
    as (hs' & calls' & Hloop & _ & _ & Hone).
  rewrite Hloop. cbn [bind fst snd].
  exists (hs' !! 0%nat), calls'. split; [reflexivity|].
  intros Hne. apply lookup_lt_is_Some_2. rewrite Hone; [lia|].
  intros Hnil. now apply padded_nil_inv in Hnil.
Qed.

(** What the constructor leaves: the padded list, the root in its field, and
    the arguments as they were given. *)
Lemma constructor_returns (hs : list (list Z)) (f : list Z -> list Z)
  (size : option nat) :
  exists t,
    MerkleTree.constructor hs f size = Returns t /\
    MerkleTree.hashes t = MerkleTree.padded hs /\
    MerkleTree.hashFunction t = f /\
    MerkleTree.hashSize t = default MerkleTree.DEFAULT_HASH_SIZE size /\
    is_Some (MerkleTree.merkleRoot t) /\
    (hs = [] ->
     MerkleTree.merkleRoot t = Some (replicate (MerkleTree.hashSize t) 0) /\
     MerkleTree.hashCalls t = []).
Proof.
  unfold MerkleTree.constructor. cbn zeta. unfold MerkleTree.getRoot.
  cbn [MerkleTree.hashes MerkleTree.merkleRoot MerkleTree.hashSize].
  destruct hs as [|h hs].
  - cbn. eexists. split; [reflexivity|]. cbn. repeat split; eauto.
  - cbn [length Nat.eqb].
    destruct (computeMerkleRoot_returns
                (MerkleTree.mk (h :: hs) f
                   (default MerkleTree.DEFAULT_HASH_SIZE size) None []))
      as (root & calls & Hroot & Hsome).
    rewrite Hroot. cbn [bind fst snd]. eexists. split; [reflexivity|].
    cbn. repeat split; [now apply Hsome|discriminate..].
Qed.

(** *** One pass of the reduction *)

Lemma lookup_pop_insert (hs : list (list Z)) (i : nat) (v : list Z) (j : nat) :
  (S i < length hs)%nat ->
  MerkleTree.pop (<[i := v]> hs) !! j =
    if decide (j = i) then Some v
    else if decide (j < length hs - 1)%nat then hs !! j else None.
Proof.
  intros Hi. unfold MerkleTree.pop.
  rewrite lookup_take, length_insert, list_lookup_insert.
  repeat case_decide; try reflexivity; lia.
Qed.

(** The pass leaves the first half of the scanned list: as many hashes as
    there were pairs, of which every second one is a leaf. *)
Lemma forLoop_scanned (f : list Z -> list Z) (i : nat) :
  Nat.even i = true ->
  forall hs calls : list (list Z),
    (i <= length hs)%nat ->
    exists calls',
      MerkleTree.forLoop f i hs calls
        = Returns (take (length hs - i / 2) (scanned f i hs), calls').
Proof.
  induction i as [i IH] using (well_founded_induction lt_wf).
  intros Heven hs calls Hi. destruct i as [|[|i']].
  - exists calls. cbn [MerkleTree.forLoop]. do 2 f_equal.
    rewrite take_ge by (unfold scanned; rewrite length_imap; lia).
    apply list_eq. intros k. unfold scanned. rewrite list_lookup_imap.
    now destruct (hs !! k).
  - discriminate Heven.
  - cbn [MerkleTree.forLoop].
    destruct (lookup_lt_is_Some_2 hs i') as [l Hl]; [lia|].
    destruct (lookup_lt_is_Some_2 hs (S i')) as [r Hr]; [lia|].
    rewrite Hl, Hr.
    assert (Heven' : Nat.even i' = true) by exact Heven.
    destruct (IH i' ltac:(lia) Heven'
                (MerkleTree.pop (<[i' := f (l ++ r)]> hs))
                (calls ++ [l ++ r])) as (calls' & Hloop).
    { rewrite length_pop, length_insert. lia. }
    exists calls'. rewrite Hloop. do 2 f_equal.
    rewrite length_pop, length_insert.
    replace (length hs - 1 - i' / 2)%nat with (length hs - S (S i') / 2)%nat
      by lia.
    apply list_eq. intros k. rewrite !lookup_take. case_decide; [|reflexivity].
    unfold scanned. rewrite !list_lookup_imap.
    rewrite !lookup_pop_insert by lia.
    destruct (lookup_lt_is_Some_2 hs k) as [h Hh]; [lia|]. rewrite Hh.
    assert (Hodd : Nat.even (S i') = false)
      by (rewrite Nat.even_succ, <- Nat.negb_even, Heven'; reflexivity).
    destruct (Nat.ltb_spec k i') as [Hlt|Hge].
    + (* below the pair: both lists hold the hashes of [hs] *)
      destruct (Nat.ltb_spec k (S (S i'))); [|lia].
      repeat case_decide; try lia; cbn [fmap option_fmap option_map].
      * subst i'. destruct (Nat.even k) eqn:Hk; [|reflexivity].
        rewrite Nat.even_succ, <- Nat.negb_even, Hk in Heven'. discriminate.
      * reflexivity.
    + cbn [andb]. destruct (decide (k = i')) as [->|Hne].
      * (* the left hash of the pair: its parent *)
        destruct (Nat.ltb_spec i' (S (S i'))); [|lia].
        rewrite Heven'. cbn [andb fmap option_fmap option_map].
        rewrite Hr. cbn. congruence.
      * (* above the left hash: untouched *)
        case_decide; [|lia]. cbn [fmap option_fmap option_map].
        destruct (Nat.ltb_spec k (S (S i'))); [|reflexivity].
        replace k with (S i') by lia. now rewrite Hodd.
Qed.

(** One pass over a list of even length [N] leaves [N / 2] hashes. From four
    hashes on, the second of them is the second leaf. *)
Lemma pass_of_even (f : list Z -> list Z) (hs calls : list (list Z)) :
  Nat.even (length hs) = true ->
  exists hs' calls',
    MerkleTree.forLoop f (length hs) hs calls = Returns (hs', calls') /\
    hs' = take (length hs / 2) (scanned f (length hs) hs) /\
    length hs' = (length hs / 2)%nat /\
    ((4 <= length hs)%nat -> hs' !! 1%nat = hs !! 1%nat).
Proof.
  intros Heven.
  destruct (forLoop_scanned f (length hs) Heven hs calls (le_n _))
    as (calls' & Hpass).
  assert (Hhalf : (length hs - length hs / 2 = length hs / 2)%nat).
  { apply Nat.even_spec in Heven. destruct Heven as [n Hn]. lia. }
  rewrite Hhalf in Hpass.
  eexists. exists calls'. split; [exact Hpass|]. split; [reflexivity|].
  split.
  - rewrite length_take. unfold scanned. rewrite length_imap. lia.
  - intros Hfour. rewrite lookup_take. case_decide; [|lia].
    unfold scanned. rewrite list_lookup_imap.
    destruct (Nat.ltb_spec 1 (length hs)); [|lia]. cbn [andb Nat.even].
    now destruct (hs !! 1%nat).
Qed.

(** C1, at the input on which the code departs from it. One pass over four
    hashes calls the hash function on both pairs, right pair first, but
    [pop] then removes the parent of the right pair that the pass has just
    stored: the pass leaves the parent of the left pair followed by the
    second leaf, and not the two parents. The root of four leaves is
    therefore computed from the first two leaves alone. *)
Theorem forLoop_drops_right_parent (f : list Z -> list Z)
  (h0 h1 h2 h3 : list Z) :
  MerkleTree.forLoop f (length [h0; h1; h2; h3]) [h0; h1; h2; h3] []
    = Returns ([f (h0 ++ h1); h1], [h2 ++ h3; h0 ++ h1]) /\
  exists t,
    MerkleTree.constructor [h0; h1; h2; h3] f None = Returns t /\
    MerkleTree.merkleRoot t = Some (f (f (h0 ++ h1) ++ h1)).
Proof. split; [reflexivity|]. eexists. split; reflexivity. Qed.

(** With the identity as the hash function, the pass over the four leaves 1,
    2, 3 and 4 gives the parent [[1; 2]] and the leaf [[2]], where the two
    parents would be [[1; 2]] and [[3; 4]]. *)
Lemma forLoop_four_leaves :
  MerkleTree.forLoop (fun h => h) 4 [[1]; [2]; [3]; [4]] []
    = Returns ([[1; 2]; [2]], [[3; 4]; [1; 2]]).
Proof. reflexivity. Qed.

(** *** The empty tree *)

(** C8. On a tree without hashes, [getRoot] returns [hashSize] zero bytes,
    whatever the hash size and the hash function are, and leaves the tree as
    it is: no call of the hash function is recorded. Constructed without a
    hash size, the empty tree has a root of 32 zero bytes. *)
Theorem getRoot_empty (this : MerkleTree.t) :
  MerkleTree.hashes this = [] ->
  MerkleTree.getRoot this
    = Returns (Some (replicate (MerkleTree.hashSize this) 0), this) /\
  length (replicate (MerkleTree.hashSize this) 0) = MerkleTree.hashSize this /\
  forall f : list Z -> list Z,
    MerkleTree.constructor [] f None
      = Returns (MerkleTree.mk [] f 32 (Some (replicate 32 0)) []).
Proof.
  intros Hnil. unfold MerkleTree.getRoot. rewrite Hnil. cbn [length Nat.eqb].
  split; [reflexivity|]. split; [apply length_replicate|]. reflexivity.
Qed.

Lemma getRoot_empty_witness :
  MerkleTree.getRoot (MerkleTree.mk [] (fun h => h) 3 None [])
    = Returns (Some [0; 0; 0], MerkleTree.mk [] (fun h => h) 3 None []).
Proof.
  apply (getRoot_empty (MerkleTree.mk [] (fun h => h) 3 None [])).
  reflexivity.
Defined.

(** *** The padding of the list of hashes *)

(** C7. The constructor returns, and leaves a list of hashes of even length:
    the list it was given, followed by a copy of its last hash when it was of
    odd length, so that three hashes become four, the fourth being the third.
    On the tree it leaves, [getRoot] changes nothing and [computeMerkleRoot]
    leaves the list of hashes as it is. *)
Theorem constructor_pads_hashes (hs : list (list Z)) (f : list Z -> list Z)
  (size : option nat) :
  exists t,
    MerkleTree.constructor hs f size = Returns t /\
    (length (MerkleTree.hashes t) mod 2 = 0)%nat /\
    ((length hs mod 2 <> 0)%nat ->
     exists h, last hs = Some h /\ MerkleTree.hashes t = hs ++ [h]) /\
    (forall A B C : list Z,
       hs = [A; B; C] -> MerkleTree.hashes t = [A; B; C; C]) /\
    ((length hs mod 2 = 0)%nat -> MerkleTree.hashes t = hs) /\
    (exists root, MerkleTree.getRoot t = Returns (root, t)) /\
    (exists root t',
       MerkleTree.computeMerkleRoot t = Returns (root, t') /\
       MerkleTree.hashes t' = MerkleTree.hashes t).
Proof.
  destruct (constructor_returns hs f size)
    as (t & Ht & Hhs & _ & _ & [r Hr] & _).
  exists t. split; [exact Ht|]. rewrite Hhs.
  split; [apply padded_even|].
  split; [apply padded_of_odd|].
  split; [now intros A B C ->|].
  split; [apply padded_of_even|].
  split.
  - unfold MerkleTree.getRoot. rewrite Hr.
    destruct (length (MerkleTree.hashes t) =? 0)%nat; eauto.
  - destruct (computeMerkleRoot_returns t) as (root & calls & Hroot & _).
    exists root. eexists. split; [exact Hroot|].
    cbn [MerkleTree.set_hashCalls MerkleTree.set_hashes MerkleTree.hashes].
    rewrite Hhs. apply padded_of_even, padded_even.
Qed.

Lemma constructor_pads_hashes_witness :
  exists t,
    MerkleTree.constructor [[1]; [2]; [3]] (fun h => h) None = Returns t /\
    MerkleTree.hashes t = [[1]; [2]; [3]; [3]].
Proof.
  destruct (constructor_pads_hashes [[1]; [2]; [3]] (fun h => h) None)
    as (t & Ht & _ & _ & Hthree & _).
  exists t. split; [exact Ht|]. apply Hthree. reflexivity.
Defined.

(** *** The cached root *)

(** A tree of two hashes answers with its root, and with zero bytes once its
    list of hashes has been emptied. *)
Lemma emptied_tree_forgets_root :
  exists t,
    MerkleTree.constructor [[1]; [2]] (fun h => h) None = Returns t /\
    ~ root_survives t [].
Proof.
  eexists. split; [reflexivity|].
  intros (root & t1 & t2 & H1 & H2).
  cbn in H1. injection H1 as <- <-. cbn in H2. discriminate.
Qed.

(** C3, amended. On a constructed tree, two calls of [getRoot] return the
    same root, whatever list the caller has put in place of the list of
    hashes before the first call and between the two calls, as long as the
    list is empty at both calls or at neither; both calls return and leave
    the tree as it is. *)
Theorem getRoot_cached (hs : list (list Z)) (f : list Z -> list Z)
  (size : option nat) (t : MerkleTree.t) (hs1 hs2 : list (list Z)) :
  MerkleTree.constructor hs f size = Returns t ->
  (hs1 = [] <-> hs2 = []) ->
  exists root,
    MerkleTree.getRoot (MerkleTree.set_hashes hs1 t)
      = Returns (root, MerkleTree.set_hashes hs1 t) /\
    MerkleTree.getRoot (MerkleTree.set_hashes hs2 (MerkleTree.set_hashes hs1 t))
      = Returns (root, MerkleTree.set_hashes hs2 (MerkleTree.set_hashes hs1 t)).
Proof.
  intros Ht Hboth.
  destruct (constructor_returns hs f size) as (t' & Ht' & _ & _ & _ & [r Hr] & _).
  rewrite Ht in Ht'. injection Ht' as <-.
  unfold MerkleTree.getRoot.
  cbn [MerkleTree.set_hashes MerkleTree.hashes MerkleTree.merkleRoot
       MerkleTree.hashSize].
  rewrite Hr. destruct hs1 as [|h1 hs1], hs2 as [|h2 hs2]; cbn [length Nat.eqb].
  - eauto.
  - destruct Hboth as [Hboth _]. now specialize (Hboth eq_refl).
  - destruct Hboth as [_ Hboth]. now specialize (Hboth eq_refl).
  - eauto.
Qed.

Lemma getRoot_cached_witness :
  exists root,
    MerkleTree.getRoot
      (MerkleTree.set_hashes [[5]]
         (MerkleTree.mk [[1]; [2]] (fun h => h) 32 (Some [1; 2]) [[1; 2]]))
    = Returns (root,
               MerkleTree.set_hashes [[5]]
                 (MerkleTree.mk [[1]; [2]] (fun h => h) 32 (Some [1; 2])
                    [[1; 2]])) /\
    root = Some [1; 2].
Proof.
  destruct (getRoot_cached [[1]; [2]] (fun h => h) None
              (MerkleTree.mk [[1]; [2]] (fun h => h) 32 (Some [1; 2]) [[1; 2]])
              [[5]] [[7]; [8]; [9]])
    as (root & H1 & H2).
  - reflexivity.
  - split; discriminate.
  - exists root. split; [exact H1|].
    cbn in H1. now injection H1 as <-.
Defined.

(** * Further properties *)

(** ** Writer: the bytes a write leaves *)

Lemma le_bytes_lookup (n : nat) (v : Z) (j : nat) :
  (j < n)%nat -> le_bytes n v !! j = Some (v / 256 ^ Z.of_nat j mod 256).
Proof.
  revert v j; induction n as [|n IH]; intros v j Hj; [lia|].
  destruct j as [|j]; cbn [le_bytes lookup list_lookup].
  - now rewrite Z.div_1_r.
  - change ((v mod 256 :: le_bytes n (v / 256)) !! S j)
      with (le_bytes n (v / 256) !! j).
    rewrite IH by lia. rewrite Nat2Z.inj_succ, Z.pow_succ_r by lia.
    now rewrite Z.div_div by lia.
Qed.

(** A write of one of the four widths that has room stores the bytes of the
    value, least significant first, over the bytes at the offset. *)
Lemma writeUint_in_bounds (k : uint) (v : Z) (w : Writer.t) :
  0 <= Writer.offset w ->
  Writer.offset w + Z.of_nat (uint_width k)
    <= Z.of_nat (length (Writer.buffer w)) ->
  writeUint k v w =
    Returns {| Writer.buffer :=
                 take (Z.to_nat (Writer.offset w)) (Writer.buffer w)
                 ++ le_bytes (uint_width k) v
                 ++ drop (Z.to_nat (Writer.offset w) + uint_width k)
                      (Writer.buffer w);
               Writer.offset := Writer.offset w + Z.of_nat (uint_width k);
               Writer.size := Writer.size w |}.
Proof.
  intros Ho Hroom. destruct k; cbn [writeUint uint_width] in *.
  - unfold Writer.writeUint8. now rewrite set_splice.
  - unfold Writer.writeUint16. now rewrite setUintLE_in_bounds.
  - unfold Writer.writeUint32. now rewrite setUintLE_in_bounds.
  - unfold Writer.writeUint64. now rewrite setUintLE_in_bounds.
Qed.

Lemma get_lookup (a : list Z) (i : nat) :
  TypedArray.get a (Z.of_nat i) = a !! i.
Proof.
  unfold TypedArray.get. destruct (Z.leb_spec 0 (Z.of_nat i)); [|lia].
  now rewrite Nat2Z.id.
Qed.

(** Little-endian layout: after [writeUintK(v)] at the offset [o], the byte
    at [o + j] is digit [j] of [v] in base 256, for each [j] below the
    width. *)
Theorem writeUint_little_endian (k : uint) (v : Z) (w : Writer.t) (j : Z) :
  0 <= Writer.offset w ->
  Writer.offset w + Z.of_nat (uint_width k)
    <= Z.of_nat (length (Writer.buffer w)) ->
  0 <= j < Z.of_nat (uint_width k) ->
  exists w',
    writeUint k v w = Returns w' /\
    TypedArray.get (Writer.buffer w') (Writer.offset w + j)
      = Some (v / 256 ^ j mod 256).
Proof.
  intros Ho Hroom Hj. eexists. split; [now apply writeUint_in_bounds|].
  cbn [Writer.buffer].
  replace (Writer.offset w + j)
    with (Z.of_nat (Z.to_nat (Writer.offset w) + Z.to_nat j)) by lia.
  rewrite get_lookup.
  rewrite lookup_app_r by (rewrite length_take; lia).
  rewrite length_take.
  replace (Z.to_nat (Writer.offset w) + Z.to_nat j
           - Z.to_nat (Writer.offset w) `min` length (Writer.buffer w))%nat
    with (Z.to_nat j) by lia.
  rewrite lookup_app_l by (rewrite length_le_bytes; lia).
  rewrite le_bytes_lookup by lia. now rewrite Z2Nat.id by lia.
Qed.

Lemma writeUint_little_endian_witness :
  exists w',
    writeUint Uint16 258 (Writer.constructor [0; 0; 0] (Some 1)) = Returns w' /\
    TypedArray.get (Writer.buffer w') (1 + 1) = Some (258 / 256 ^ 1 mod 256).
Proof.
  apply (writeUint_little_endian Uint16 258
           (Writer.constructor [0; 0; 0] (Some 1)) 1); cbn; lia.
Defined.

(** A write of one of the four widths changes the bytes it writes and no
    other: every index outside of the written range reads as before, and
    the buffer keeps its length. *)
Theorem writeUint_frame (k : uint) (v : Z) (w w' : Writer.t) (i : Z) :
  writeUint k v w = Returns w' ->
  i < Writer.offset w \/ Writer.offset w + Z.of_nat (uint_width k) <= i ->
  TypedArray.get (Writer.buffer w') i = TypedArray.get (Writer.buffer w) i /\
  length (Writer.buffer w') = length (Writer.buffer w).
Proof.
  intros Hw Hout.
  assert (Hlen : length (Writer.buffer w') = length (Writer.buffer w)).
  { destruct k; cbn [writeUint] in Hw.
    - injection Hw as <-. apply length_set.
    - unfold Writer.writeUint16 in Hw.
      destruct (DataView.setUintLE _ _ _ _) eqn:Hs; [|discriminate..].
      injection Hw as <-. now apply length_setUintLE in Hs.
    - unfold Writer.writeUint32 in Hw.
      destruct (DataView.setUintLE _ _ _ _) eqn:Hs; [|discriminate..].
      injection Hw as <-. now apply length_setUintLE in Hs.
    - unfold Writer.writeUint64 in Hw.
      destruct (DataView.setUintLE _ _ _ _) eqn:Hs; [|discriminate..].
      injection Hw as <-. now apply length_setUintLE in Hs. }
  split; [|exact Hlen].
  destruct (Z_lt_le_dec i 0) as [Hneg|Hpos].
  { unfold TypedArray.get. now destruct (Z.leb_spec 0 i); [lia|]. }
  destruct (Z_lt_le_dec (Z.of_nat (length (Writer.buffer w))) 
              (Writer.offset w + Z.of_nat (uint_width k))) as [Hover|Hroom].
  - (* no room: only a [writeUint8] returns, and it stores nothing *)
    destruct k; cbn [writeUint uint_width] in *.
    + injection Hw as <-. cbn [Writer.writeUint8 Writer.buffer].
      unfold TypedArray.set.
      destruct (Z.leb_spec 0 (Writer.offset w)); cbn [andb]; [|reflexivity].
      destruct (Z.ltb_spec (Writer.offset w)
                  (Z.of_nat (length (Writer.buffer w)))); [lia|reflexivity].
    + unfold Writer.writeUint16, DataView.setUintLE in Hw.
      destruct (DataView.in_bounds _ _ _) eqn:Hb; [|discriminate].
      apply in_bounds_true in Hb. lia.
    + unfold Writer.writeUint32, DataView.setUintLE in Hw.
      destruct (DataView.in_bounds _ _ _) eqn:Hb; [|discriminate].
      apply in_bounds_true in Hb. lia.
    + unfold Writer.writeUint64, DataView.setUintLE in Hw.
      destruct (DataView.in_bounds _ _ _) eqn:Hb; [|discriminate].
      apply in_bounds_true in Hb. lia.
  - destruct (Z_lt_le_dec (Writer.offset w) 0) as [Hnego|Hposo].
    + (* a negative offset: as above *)
      destruct k; cbn [writeUint uint_width] in *.
      * injection Hw as <-. cbn [Writer.writeUint8 Writer.buffer].
        unfold TypedArray.set.
        destruct (Z.leb_spec 0 (Writer.offset w)); [lia|reflexivity].
      * unfold Writer.writeUint16, DataView.setUintLE in Hw.
        destruct (DataView.in_bounds _ _ _) eqn:Hb; [|discriminate].
        apply in_bounds_true in Hb. lia.
      * unfold Writer.writeUint32, DataView.setUintLE in Hw.
        destruct (DataView.in_bounds _ _ _) eqn:Hb; [|discriminate].
        apply in_bounds_true in Hb. lia.
      * unfold Writer.writeUint64, DataView.setUintLE in Hw.
        destruct (DataView.in_bounds _ _ _) eqn:Hb; [|discriminate].
        apply in_bounds_true in Hb. lia.
    + rewrite writeUint_in_bounds in Hw by assumption. injection Hw as <-.
      cbn [Writer.buffer]. rewrite <- (Z2Nat.id i) by lia.
      rewrite !get_lookup.
      destruct Hout as [Hbelow|Habove].
      * rewrite lookup_app_l by (rewrite length_take; lia).
        apply lookup_take_lt. lia.
      * rewrite lookup_app_r by (rewrite length_take; lia).
        rewrite lookup_app_r
          by (rewrite length_take, length_le_bytes; lia).
        rewrite length_take, length_le_bytes, lookup_drop. f_equal. lia.
Qed.

Lemma writeUint_frame_witness :
  TypedArray.get [7; 1; 0; 0; 0; 9] 5 = TypedArray.get [7; 8; 8; 8; 8; 9] 5 /\
  length [7; 1; 0; 0; 0; 9] = length [7; 8; 8; 8; 8; 9].
Proof.
  apply (writeUint_frame Uint32 1 (Writer.constructor [7; 8; 8; 8; 8; 9] (Some 1))
           (Writer.mk [7; 1; 0; 0; 0; 9] 5 6) 5).
  - reflexivity.
  - right. cbn. lia.
Defined.

(** ** Writer and Reader: values outside of the width *)

Lemma Reader_wide_read (n : nat) (mem : list Z) (o : Z) :
  0 <= o -> o + Z.of_nat n <= Z.of_nat (length mem) -> (0 < n)%nat ->
  let r := Reader.advance (Z.of_nat n) (Reader.constructor mem (Some o)) in
  DataView.getUintLE n (Reader.buffer r) (Reader.offset r - Z.of_nat n)
    = DataView.getUintLE n mem o.
Proof.
  intros Ho Hn Hpos. cbn zeta.
  cbn [Reader.advance Reader.buffer Reader.offset].
  rewrite Reader_constructor_offset by lia.
  rewrite Reader_constructor_buffer. f_equal. lia.
Qed.

(** The writes wrap: [writeUintK(v)] of any integer [v], negative or too
    large, followed by [readUintK()] at the same offset reads [v] modulo
    [2 ^ K]. *)
Theorem write_read_wraps (k : uint) (buf : list Z) (o v : Z) :
  0 <= o ->
  o + Z.of_nat (uint_width k) <= Z.of_nat (length buf) ->
  write_then_read k buf o v = Some (v mod 2 ^ (8 * Z.of_nat (uint_width k))).
Proof.
  intros Ho Hn. destruct k; unfold write_then_read; cbv beta zeta.
  - cbn in Hn. cbn [fst Reader.readUint8].
    rewrite Reader_constructor_offset, Reader_constructor_buffer;
      cbn [Writer.writeUint8 Writer.buffer Writer.constructor Writer.offset
           default from_option id]; rewrite ?length_set; [|lia].
    now rewrite get_set by lia.
  - destruct (getUintLE_setUintLE 2 buf o v Ho Hn) as (mem' & Hset & Hget).
    pose proof (length_setUintLE _ _ _ _ _ Hset) as Hlen.
    unfold Writer.writeUint16.
    cbn [Writer.constructor Writer.buffer Writer.offset default from_option id].
    rewrite Hset. cbn [bind Writer.buffer]. unfold Reader.readUint16.
    cbn [fst].
    pose proof (Reader_wide_read 2 mem' o Ho ltac:(cbn in *; lia) ltac:(lia))
      as Hr.
    cbn zeta in Hr. change (Z.of_nat 2) with 2 in Hr. rewrite Hr.
    now rewrite Hget.
  - destruct (getUintLE_setUintLE 4 buf o v Ho Hn) as (mem' & Hset & Hget).
    pose proof (length_setUintLE _ _ _ _ _ Hset) as Hlen.
    unfold Writer.writeUint32.
    cbn [Writer.constructor Writer.buffer Writer.offset default from_option id].
    rewrite Hset. cbn [bind Writer.buffer]. unfold Reader.readUint32.
    cbn [fst].
    pose proof (Reader_wide_read 4 mem' o Ho ltac:(cbn in *; lia) ltac:(lia))
      as Hr.
    cbn zeta in Hr. change (Z.of_nat 4) with 4 in Hr. rewrite Hr.
    now rewrite Hget.
  - destruct (getUintLE_setUintLE 8 buf o v Ho Hn) as (mem' & Hset & Hget).
    pose proof (length_setUintLE _ _ _ _ _ Hset) as Hlen.
    unfold Writer.writeUint64.
    cbn [Writer.constructor Writer.buffer Writer.offset default from_option id].
    rewrite Hset. cbn [bind Writer.buffer]. unfold Reader.readUint64.
    cbn [fst].
    pose proof (Reader_wide_read 8 mem' o Ho ltac:(cbn in *; lia) ltac:(lia))
      as Hr.
    cbn zeta in Hr. change (Z.of_nat 8) with 8 in Hr. rewrite Hr.
    now rewrite Hget.
Qed.

Lemma write_read_wraps_witness :
  write_then_read Uint16 [0; 0; 0] 1 (-1) = Some 65535.
Proof.
  apply (write_read_wraps Uint16 [0; 0; 0] 1 (-1)); cbn; lia.
Defined.

Lemma le_value_bound (bs : list Z) :
  Forall is_byte bs -> 0 <= le_value bs < 256 ^ Z.of_nat (length bs).
Proof.
  induction 1 as [|b bs Hb _ IH]; [cbn; lia|].
  cbn [le_value length]. rewrite Nat2Z.inj_succ, Z.pow_succ_r by lia.
  unfold is_byte in Hb. lia.
Qed.

Lemma le_value_app (l1 l2 : list Z) :
  le_value (l1 ++ l2)
    = le_value l1 + 256 ^ Z.of_nat (length l1) * le_value l2.
Proof.
  induction l1 as [|b l1 IH]; [cbn; lia|].
  cbn [app le_value length]. rewrite IH, Nat2Z.inj_succ, Z.pow_succ_r by lia.
  lia.
Qed.

Lemma window_length (mem : list Z) (o : Z) (n : nat) :
  0 <= o -> o + Z.of_nat n <= Z.of_nat (length mem) ->
  length (DataView.window mem o n) = n.
Proof.
  intros Ho Hn. unfold DataView.window. rewrite length_take, length_drop. lia.
Qed.

Lemma window_split (mem : list Z) (o : Z) (n m : nat) :
  0 <= o ->
  DataView.window mem o (n + m)
    = DataView.window mem o n ++ DataView.window mem (o + Z.of_nat n) m.
Proof.
  intros Ho. unfold DataView.window.
  rewrite <- take_take_drop, drop_drop. do 3 f_equal. lia.
Qed.

(** ** Reader: what the reads return *)

(** With bytes in the buffer, an integer read of K bits that returns a value
    returns one from 0 to [2 ^ K - 1]. *)
Theorem read_range (k : uint) (r : Reader.t) (v : Z) :
  Forall is_byte (Reader.buffer r) ->
  match k with
  | Uint8 => fst (Reader.readUint8 r) = Some v
  | Uint16 => fst (Reader.readUint16 r) = Returns v
  | Uint32 => fst (Reader.readUint32 r) = Returns v
  | Uint64 => fst (Reader.readUint64 r) = Returns v
  end ->
  0 <= v < 2 ^ (8 * Z.of_nat (uint_width k)).
Proof.
  intros Hbytes.
  assert (Hw : forall (n : nat) (o : Z),
            DataView.getUintLE n (Reader.buffer r) o = Returns v ->
            0 <= v < 256 ^ Z.of_nat n).
  { intros n o. unfold DataView.getUintLE.
    destruct (DataView.in_bounds _ _ _) eqn:Hb; [|discriminate].
    apply in_bounds_true in Hb. intros [= <-].
    pose proof (le_value_bound (DataView.window (Reader.buffer r) o n))
      as Hbound.
    rewrite window_length in Hbound by lia. apply Hbound.
    unfold DataView.window. now apply Forall_take, Forall_drop. }
  destruct k; cbn [uint_width];
    unfold Reader.readUint8, Reader.readUint16, Reader.readUint32,
      Reader.readUint64;
    cbn [fst Reader.advance Reader.buffer Reader.offset]; intros Hv.
  - unfold TypedArray.get in Hv.
    destruct (0 <=? Reader.offset r); [|discriminate].
    apply (Forall_lookup_1 _ _ _ _ Hbytes) in Hv. exact Hv.
  - apply Hw in Hv. exact Hv.
  - apply Hw in Hv. exact Hv.
  - apply Hw in Hv. exact Hv.
Qed.

Lemma read_range_witness : 0 <= 513 < 2 ^ (8 * Z.of_nat (uint_width Uint16)).
Proof.
  apply (read_range Uint16 (Reader.constructor [1; 2] None) 513).
  - repeat (constructor; [unfold is_byte; lia|]). constructor.
  - reflexivity.
Defined.

(** A read of two bytes is two reads of one byte, the first one being the
    low byte; a read of four bytes is two reads of two bytes, and a read of
    eight bytes two reads of four, low half first. The reader is left at the
    same place either way. *)
Theorem read_wide_as_two_halves (r : Reader.t) :
  0 <= Reader.offset r ->
  (Reader.offset r + 2 <= Z.of_nat (length (Reader.buffer r)) ->
   exists lo hi,
     fst (Reader.readUint8 r) = Some lo /\
     fst (Reader.readUint8 (snd (Reader.readUint8 r))) = Some hi /\
     Reader.readUint16 r
       = (Returns (lo + 2 ^ 8 * hi),
          snd (Reader.readUint8 (snd (Reader.readUint8 r))))) /\
  (Reader.offset r + 4 <= Z.of_nat (length (Reader.buffer r)) ->
   exists lo hi,
     fst (Reader.readUint16 r) = Returns lo /\
     fst (Reader.readUint16 (snd (Reader.readUint16 r))) = Returns hi /\
     Reader.readUint32 r
       = (Returns (lo + 2 ^ 16 * hi),
          snd (Reader.readUint16 (snd (Reader.readUint16 r))))) /\
  (Reader.offset r + 8 <= Z.of_nat (length (Reader.buffer r)) ->
   exists lo hi,
     fst (Reader.readUint32 r) = Returns lo /\
     fst (Reader.readUint32 (snd (Reader.readUint32 r))) = Returns hi /\
     Reader.readUint64 r
       = (Returns (lo + 2 ^ 32 * hi),
          snd (Reader.readUint32 (snd (Reader.readUint32 r))))).
Proof.
  intros Ho.
  assert (Hhalves : forall n : nat,
    Reader.offset r + Z.of_nat (n + n) <= Z.of_nat (length (Reader.buffer r)) ->
    DataView.getUintLE (n + n) (Reader.buffer r) (Reader.offset r)
    = Returns
        (le_value (DataView.window (Reader.buffer r) (Reader.offset r) n)
         + 256 ^ Z.of_nat n
           * le_value (DataView.window (Reader.buffer r)
                         (Reader.offset r + Z.of_nat n) n))
    /\ DataView.getUintLE n (Reader.buffer r) (Reader.offset r)
       = Returns (le_value (DataView.window (Reader.buffer r)
                              (Reader.offset r) n))
    /\ DataView.getUintLE n (Reader.buffer r) (Reader.offset r + Z.of_nat n)
       = Returns (le_value (DataView.window (Reader.buffer r)
                              (Reader.offset r + Z.of_nat n) n))).
  { intros n Hn. unfold DataView.getUintLE.
    rewrite !(proj2 (in_bounds_true _ _ _)) by lia.
    rewrite window_split, le_value_app by lia.
    rewrite window_length by lia. auto. }
  split; [|split].
  - intros Hroom. unfold Reader.readUint8, Reader.readUint16.
    cbn [fst snd Reader.advance Reader.buffer Reader.offset].
    destruct (lookup_lt_is_Some_2 (Reader.buffer r)
                (Z.to_nat (Reader.offset r))) as [lo Hlo]; [lia|].
    destruct (lookup_lt_is_Some_2 (Reader.buffer r)
                (S (Z.to_nat (Reader.offset r)))) as [hi Hhi]; [lia|].
    exists lo, hi. unfold TypedArray.get.
    destruct (Z.leb_spec 0 (Reader.offset r)); [|lia].
    destruct (Z.leb_spec 0 (Reader.offset r + 1)); [|lia].
    replace (Z.to_nat (Reader.offset r + 1))
      with (S (Z.to_nat (Reader.offset r))) by lia.
    split; [exact Hlo|]. split; [exact Hhi|].
    replace (Reader.offset r + 2 - 2) with (Reader.offset r) by lia.
    f_equal.
    + unfold DataView.getUintLE.
      rewrite (proj2 (in_bounds_true _ _ 2)) by lia. f_equal.
      unfold DataView.window.
      rewrite (drop_S _ _ _ Hlo), (drop_S _ _ _ Hhi).
      cbn [take le_value]. rewrite take_0. cbn [le_value].
      change (2 ^ 8) with 256. lia.
    + unfold Reader.advance. cbn [Reader.offset Reader.buffer Reader.size].
      f_equal. lia.
  - intros Hroom. destruct (Hhalves 2%nat) as (Hall & Hlo & Hhi); [cbn; lia|].
    do 2 eexists. unfold Reader.readUint16, Reader.readUint32.
    cbn [fst snd Reader.advance Reader.buffer Reader.offset].
    replace (Reader.offset r + 2 - 2) with (Reader.offset r) by lia.
    replace (Reader.offset r + 4 - 4) with (Reader.offset r) by lia.
    replace (Reader.offset r + 2 + 2 - 2) with (Reader.offset r + 2) by lia.
    split; [exact Hlo|]. split; [exact Hhi|]. f_equal; [exact Hall|].
    unfold Reader.advance. cbn [Reader.offset Reader.buffer Reader.size].
    f_equal. lia.
  - intros Hroom. destruct (Hhalves 4%nat) as (Hall & Hlo & Hhi); [cbn; lia|].
    do 2 eexists. unfold Reader.readUint32, Reader.readUint64.
    cbn [fst snd Reader.advance Reader.buffer Reader.offset].
    replace (Reader.offset r + 4 - 4) with (Reader.offset r) by lia.
    replace (Reader.offset r + 8 - 8) with (Reader.offset r) by lia.
    replace (Reader.offset r + 4 + 4 - 4) with (Reader.offset r + 4) by lia.
    split; [exact Hlo|]. split; [exact Hhi|]. f_equal; [exact Hall|].
    unfold Reader.advance. cbn [Reader.offset Reader.buffer Reader.size].
    f_equal. lia.
Qed.

Lemma read_wide_as_two_halves_witness :
  exists lo hi,
    fst (Reader.readUint8 (Reader.constructor [9; 1; 2] (Some 1))) = Some lo /\
    fst (Reader.readUint8
           (snd (Reader.readUint8 (Reader.constructor [9; 1; 2] (Some 1)))))
      = Some hi /\
    Reader.readUint16 (Reader.constructor [9; 1; 2] (Some 1))
      = (Returns (lo + 2 ^ 8 * hi),
         snd (Reader.readUint8
                (snd (Reader.readUint8
                        (Reader.constructor [9; 1; 2] (Some 1)))))).
Proof.
  destruct (read_wide_as_two_halves (Reader.constructor [9; 1; 2] (Some 1)))
    as (H16 & _ & _); [simpl; lia|].
  apply H16. simpl. lia.
Defined.

(** ** Reader and Writer: accesses outside of the buffer *)

(** A read of two, four or eight bytes that does not fit in the buffer
    throws a [RangeError], and has moved the offset all the same; a read of
    one byte outside of the buffer returns [undefined] and moves the offset
    too. *)
Theorem read_outside (k : uint) (r : Reader.t) :
  Reader.offset r < 0 \/
  Z.of_nat (length (Reader.buffer r)) < Reader.offset r + Z.of_nat (uint_width k) ->
  match k with
  | Uint8 => fst (Reader.readUint8 r) = None /\
             Reader.offset (snd (Reader.readUint8 r)) = Reader.offset r + 1
  | Uint16 => fst (Reader.readUint16 r) = Throws RangeError /\
              Reader.offset (snd (Reader.readUint16 r)) = Reader.offset r + 2
  | Uint32 => fst (Reader.readUint32 r) = Throws RangeError /\
              Reader.offset (snd (Reader.readUint32 r)) = Reader.offset r + 4
  | Uint64 => fst (Reader.readUint64 r) = Throws RangeError /\
              Reader.offset (snd (Reader.readUint64 r)) = Reader.offset r + 8
  end.
Proof.
  intros Hout.
  assert (Hw : forall n : nat,
    Reader.offset r < 0 \/
    Z.of_nat (length (Reader.buffer r)) < Reader.offset r + Z.of_nat n ->
    DataView.getUintLE n (Reader.buffer r) (Reader.offset r + Z.of_nat n - Z.of_nat n)
      = Throws RangeError).
  { intros n Hn. unfold DataView.getUintLE.
    destruct (DataView.in_bounds _ _ _) eqn:Hb; [|reflexivity].
    apply in_bounds_true in Hb. lia. }
  destruct k; cbn [uint_width] in *.
  - split; [|reflexivity]. cbn [Reader.readUint8 fst]. unfold TypedArray.get.
    destruct (Z.leb_spec 0 (Reader.offset r)); [|reflexivity].
    apply lookup_ge_None_2. lia.
  - split; [exact (Hw 2%nat Hout)|reflexivity].
  - split; [exact (Hw 4%nat Hout)|reflexivity].
  - split; [exact (Hw 8%nat Hout)|reflexivity].
Qed.

Lemma read_outside_witness :
  fst (Reader.readUint32 (Reader.constructor [1; 2; 3; 4; 5] (Some 2)))
    = Throws RangeError /\
  Reader.offset
    (snd (Reader.readUint32 (Reader.constructor [1; 2; 3; 4; 5] (Some 2))))
    = 2 + 4.
Proof.
  apply (read_outside Uint32 (Reader.constructor [1; 2; 3; 4; 5] (Some 2))).
  right. simpl. lia.
Defined.

(** A write of two, four or eight bytes that does not fit in the buffer
    throws a [RangeError]; a write of one byte outside of the buffer is
    dropped without an error, and moves the offset. *)
Theorem write_outside (k : uint) (v : Z) (w : Writer.t) :
  Writer.offset w < 0 \/
  Z.of_nat (length (Writer.buffer w)) < Writer.offset w + Z.of_nat (uint_width k) ->
  match k with
  | Uint8 => Writer.buffer (Writer.writeUint8 v w) = Writer.buffer w /\
             Writer.offset (Writer.writeUint8 v w) = Writer.offset w + 1
  | _ => writeUint k v w = Throws RangeError
  end.
Proof.
  intros Hout.
  assert (Hw : forall n : nat,
    Writer.offset w < 0 \/
    Z.of_nat (length (Writer.buffer w)) < Writer.offset w + Z.of_nat n ->
    DataView.setUintLE n (Writer.buffer w) (Writer.offset w) v
      = Throws RangeError).
  { intros n Hn. unfold DataView.setUintLE.
    destruct (DataView.in_bounds _ _ _) eqn:Hb; [|reflexivity].
    apply in_bounds_true in Hb. lia. }
  destruct k; cbn [uint_width writeUint] in *.
  - split; [|reflexivity]. cbn [Writer.writeUint8 Writer.buffer].
    unfold TypedArray.set.
    destruct (Z.leb_spec 0 (Writer.offset w)); cbn [andb]; [|reflexivity].
    destruct (Z.ltb_spec (Writer.offset w)
                (Z.of_nat (length (Writer.buffer w)))); [lia|reflexivity].
  - unfold Writer.writeUint16. now rewrite (Hw 2%nat Hout).
  - unfold Writer.writeUint32. now rewrite (Hw 4%nat Hout).
  - unfold Writer.writeUint64. now rewrite (Hw 8%nat Hout).
Qed.

Lemma write_outside_witness :
  writeUint Uint16 7 (Writer.constructor [0; 0] (Some 1)) = Throws RangeError.
Proof.
  apply (write_outside Uint16 7 (Writer.constructor [0; 0] (Some 1))).
  right. cbn. lia.
Defined.

(** ** Reader: consecutive reads of bytes *)

(** Two reads of [n] and of [m] bytes return together, in this order, what
    one read of [n + m] bytes returns, and leave the reader where that read
    leaves it, also when the reads reach past the end. *)
Theorem readBuffer_twice (r : Reader.t) (n m : Z) :
  0 <= Reader.offset r -> 0 <= n -> 0 <= m ->
  fst (Reader.readBuffer n r)
    ++ fst (Reader.readBuffer m (snd (Reader.readBuffer n r)))
    = fst (Reader.readBuffer (n + m) r) /\
  snd (Reader.readBuffer m (snd (Reader.readBuffer n r)))
    = snd (Reader.readBuffer (n + m) r).
Proof.
  intros Hp Hn Hm. unfold Reader.readBuffer, Reader.advance.
  cbn [fst snd Reader.offset Reader.buffer Reader.size].
  split; [|f_equal; lia].
  replace (Reader.offset r + n - n) with (Reader.offset r) by lia.
  replace (Reader.offset r + n + m - m) with (Reader.offset r + n) by lia.
  replace (Reader.offset r + (n + m) - (n + m)) with (Reader.offset r) by lia.
  replace (Reader.offset r + (n + m)) with (Reader.offset r + n + m) by lia.
  rewrite (subarray_forward _ (Reader.offset r) n) by lia.
  rewrite (subarray_forward _ (Reader.offset r + n) m) by lia.
  replace (Reader.offset r + n + m) with (Reader.offset r + (n + m)) by lia.
  rewrite (subarray_forward _ (Reader.offset r) (n + m)) by lia.
  unfold bytes_between.
  set (buf := Reader.buffer r). set (p := Reader.offset r) in *.
  destruct (Z_le_gt_dec (p + n) (Z.of_nat (length buf))) as [Hin|Hpast].
  - rewrite (Z.min_l (p + n)) by lia.
    replace (Z.to_nat (p + n - p)) with (Z.to_nat n) by lia.
    replace (Z.to_nat (Z.min (p + (n + m)) (Z.of_nat (length buf)) - p))
      with (Z.to_nat n
            + Z.to_nat (Z.min (p + n + m) (Z.of_nat (length buf)) - (p + n)))%nat
      by lia.
    rewrite <- take_take_drop, drop_drop. do 3 f_equal; lia.
  - rewrite !Z.min_r by lia.
    rewrite (drop_ge buf (Z.to_nat (p + n))) by lia.
    rewrite take_nil. now rewrite app_nil_r.
Qed.

Lemma readBuffer_twice_witness :
  fst (Reader.readBuffer 1 (Reader.constructor [1; 2; 3] None))
    ++ fst (Reader.readBuffer 4
              (snd (Reader.readBuffer 1 (Reader.constructor [1; 2; 3] None))))
  = fst (Reader.readBuffer (1 + 4) (Reader.constructor [1; 2; 3] None)).
Proof.
  apply (readBuffer_twice (Reader.constructor [1; 2; 3] None) 1 4);
    simpl; lia.
Defined.

(** ** Writer: copying bytes *)

Lemma writeBuffer_loop_add (src : list Z) (c1 c2 : nat) (i : Z) (w : Writer.t) :
  Writer.writeBuffer_loop src (c1 + c2) i w
    = Writer.writeBuffer_loop src c2 (i + Z.of_nat c1)
        (Writer.writeBuffer_loop src c1 i w).
Proof.
  revert i w; induction c1 as [|c1 IH]; intros i w.
  - cbn. f_equal. lia.
  - cbn [Nat.add Writer.writeBuffer_loop]. rewrite IH. f_equal. lia.
Qed.

(** Inside of both lists, the loop copies: [count] bytes of [src] from index
    [i] go over the bytes of the buffer from the offset. *)
Lemma writeBuffer_loop_copy (src : list Z) (count i : nat) (w : Writer.t) :
  0 <= Writer.offset w ->
  Writer.offset w + Z.of_nat count <= Z.of_nat (length (Writer.buffer w)) ->
  (i + count <= length src)%nat ->
  Writer.writeBuffer_loop src count (Z.of_nat i) w =
    {| Writer.buffer :=
         take (Z.to_nat (Writer.offset w)) (Writer.buffer w)
         ++ map (fun b => b mod 256) (take count (drop i src))
         ++ drop (Z.to_nat (Writer.offset w) + count) (Writer.buffer w);
       Writer.offset := Writer.offset w + Z.of_nat count;
       Writer.size := Writer.size w |}.
Proof.
  revert i w; induction count as [|count IH]; intros i w Ho Hroom Hsrc.
  - cbn [Writer.writeBuffer_loop]. rewrite take_0. cbn [map app].
    rewrite Nat.add_0_r, take_drop. destruct w. cbn. f_equal. lia.
  - cbn [Writer.writeBuffer_loop].
    destruct (lookup_lt_is_Some_2 src i) as [x Hx]; [lia|].
    rewrite get_lookup, Hx. cbn [default from_option id].
    replace (Z.of_nat i + 1) with (Z.of_nat (S i)) by lia.
    rewrite IH; cbn [Writer.writeUint8 Writer.offset Writer.buffer Writer.size];
      rewrite ?length_set; try lia.
    rewrite set_splice by lia.
    rewrite (drop_S _ _ _ Hx). cbn [take map].
    set (o := Z.to_nat (Writer.offset w)).
    replace (Z.to_nat (Writer.offset w + 1)) with (o + 1)%nat by lia.
    f_equal; [|lia].
    assert (Ho' : length (take o (Writer.buffer w)) = o)
      by (rewrite length_take; lia).
    cbn [le_bytes app].
    replace (take o (Writer.buffer w) ++ x mod 256 :: drop (o + 1) (Writer.buffer w))
      with ((take o (Writer.buffer w) ++ [x mod 256])
            ++ drop (o + 1) (Writer.buffer w))
      by now rewrite <- app_assoc.
    rewrite take_app_length' by (rewrite length_app, Ho'; cbn; lia).
    rewrite drop_app_add' by (rewrite length_app, Ho'; cbn; lia).
    rewrite drop_drop, <- app_assoc. cbn [app].
    now replace (o + 1 + count)%nat with (o + S count)%nat by lia.
Qed.

(** At or past the end, the loop changes no byte. *)
Lemma writeBuffer_loop_past_end (src : list Z) (count : nat) (i : Z)
  (w : Writer.t) :
  Z.of_nat (length (Writer.buffer w)) <= Writer.offset w ->
  Writer.buffer (Writer.writeBuffer_loop src count i w) = Writer.buffer w.
Proof.
  revert i w; induction count as [|count IH]; intros i w Hpast; [reflexivity|].
  cbn [Writer.writeBuffer_loop].
  assert (Hset : forall v, TypedArray.set (Writer.buffer w) (Writer.offset w) v
                           = Writer.buffer w).
  { intros v. unfold TypedArray.set.
    destruct (Z.leb_spec 0 (Writer.offset w)); cbn [andb]; [|reflexivity].
    destruct (Z.ltb_spec (Writer.offset w)
                (Z.of_nat (length (Writer.buffer w)))); [lia|reflexivity]. }
  rewrite IH; cbn [Writer.writeUint8 Writer.buffer Writer.offset];
    rewrite Hset; [reflexivity|lia].
Qed.

Lemma map_mod_bytes (l : list Z) :
  Forall is_byte l -> map (fun b => b mod 256) l = l.
Proof.
  induction 1 as [|b l Hb _ IH]; [reflexivity|].
  cbn [map]. rewrite IH. f_equal. now apply Z.mod_small.
Qed.

(** What [writeBuffer(src)] leaves, from an offset inside of the buffer or
    at its end. *)
Lemma writeBuffer_splice (src : list Z) (w : Writer.t) :
  0 <= Writer.offset w <= Z.of_nat (length (Writer.buffer w)) ->
  let o := Z.to_nat (Writer.offset w) in
  Writer.writeBuffer src None w =
    {| Writer.buffer :=
         take (length (Writer.buffer w))
           (take o (Writer.buffer w)
            ++ map (fun b => b mod 256) src
            ++ drop (o + length src) (Writer.buffer w));
       Writer.offset := Writer.offset w + Z.of_nat (length src);
       Writer.size := Writer.size w |}.
Proof.
  intros Ho o. unfold Writer.writeBuffer. cbn [default from_option id].
  rewrite Z.sub_0_r, Nat2Z.id.
  set (room := (length (Writer.buffer w) - o)%nat).
  destruct (le_lt_dec (length src) room) as [Hfits|Hover].
  - pose proof (writeBuffer_loop_copy src (length src) 0 w) as Hcopy.
    change (Z.of_nat 0) with 0 in Hcopy. rewrite Hcopy by (cbn; lia).
    rewrite drop_0, firstn_all. fold o. f_equal.
    symmetry. apply take_ge.
    rewrite !length_app, length_take, length_map, length_drop. lia.
  - replace (length src) with (room + (length src - room))%nat at 1 by lia.
    rewrite writeBuffer_loop_add.
    pose proof (writeBuffer_loop_copy src room 0 w) as Hcopy.
    change (Z.of_nat 0) with 0 in Hcopy. rewrite Hcopy by (cbn; lia).
    replace (0 + Z.of_nat room) with (Z.of_nat room) by lia.
    set (w1 := Writer.mk _ _ _).
    assert (Hlen : length (Writer.buffer w1) = length (Writer.buffer w)).
    { subst w1. cbn [Writer.buffer].
      rewrite !length_app, length_take, length_map, length_take, !length_drop.
      lia. }
    destruct (Writer.writeBuffer_loop src (length src - room)
                (Z.of_nat room) w1) as [b' o' s'] eqn:Hrest.
    pose proof (writeBuffer_loop_past_end src (length src - room)
                  (Z.of_nat room) w1) as Hb.
    pose proof (Writer_writeBuffer_loop_offset src (length src - room)
                  (Z.of_nat room) w1) as Hoff.
    pose proof (f_equal Writer.size Hrest) as Hsize.
    rewrite Hrest in Hb, Hoff. cbn [Writer.buffer Writer.offset] in Hb, Hoff.
    assert (Hs : s' = Writer.size w).
    { clear - Hrest. revert Hrest. generalize (Z.of_nat room).
      assert (Hinv : forall c i x, Writer.size (Writer.writeBuffer_loop src c i x)
                                   = Writer.size x).
      { induction c as [|c IH]; intros i x; [reflexivity|].
        cbn [Writer.writeBuffer_loop]. now rewrite IH. }
      intros z Hz. pose proof (Hinv (length src - room)%nat z w1) as H.
      rewrite Hz in H. exact H. }
    rewrite Hb, Hoff, Hs by (rewrite Hlen; subst w1; cbn [Writer.offset]; lia).
    subst w1. cbn [Writer.buffer Writer.offset]. f_equal; [|lia].
    rewrite drop_0. fold o.
    rewrite (drop_ge (Writer.buffer w) (o + room)) by lia.
    rewrite (drop_ge (Writer.buffer w) (o + length src)) by lia.
    rewrite !app_nil_r.
    assert (Hl : length (Writer.buffer w) = (o + room)%nat) by lia.
    rewrite Hl at 1.
    rewrite take_app_add' by (rewrite length_take; lia).
    f_equal. symmetry. apply firstn_map.
Qed.

(** [writeBuffer(src)] never throws. From an offset inside of the buffer or
    at its end it copies the bytes of [src], each reduced modulo 256, over
    the bytes from the offset on, drops without an error the bytes that do
    not fit, keeps the length of the buffer, and moves the offset by the
    length of [src], fitting or not. *)
Theorem writeBuffer_truncates (src : list Z) (w : Writer.t) :
  0 <= Writer.offset w <= Z.of_nat (length (Writer.buffer w)) ->
  let o := Z.to_nat (Writer.offset w) in
  Writer.writeBuffer src None w =
    {| Writer.buffer :=
         take (length (Writer.buffer w))
           (take o (Writer.buffer w)
            ++ map (fun b => b mod 256) src
            ++ drop (o + length src) (Writer.buffer w));
       Writer.offset := Writer.offset w + Z.of_nat (length src);
       Writer.size := Writer.size w |}.
Proof. exact (writeBuffer_splice src w). Qed.

Lemma writeBuffer_truncates_witness :
  Writer.writeBuffer [7; 8; 9] None (Writer.constructor [1; 2; 3] (Some 2))
    = Writer.mk [1; 2; 7] 5 3.
Proof.
  rewrite (writeBuffer_truncates [7; 8; 9] (Writer.constructor [1; 2; 3] (Some 2)));
    [reflexivity|cbn; lia].
Defined.

(** [writeBuffer(src, index)] copies the bytes of [src] from [index] on, and
    moves the offset by their number; from an [index] at or past the end of
    [src] it writes nothing and leaves the writer as it is. *)
Theorem writeBuffer_from_index (src : list Z) (index : Z) (w : Writer.t) :
  0 <= index ->
  0 <= Writer.offset w ->
  Writer.offset w + (Z.of_nat (length src) - index)
    <= Z.of_nat (length (Writer.buffer w)) ->
  let o := Z.to_nat (Writer.offset w) in
  let rest := drop (Z.to_nat index) src in
  Writer.writeBuffer src (Some index) w =
    {| Writer.buffer :=
         take o (Writer.buffer w)
         ++ map (fun b => b mod 256) rest
         ++ drop (o + length rest) (Writer.buffer w);
       Writer.offset := Writer.offset w + Z.of_nat (length rest);
       Writer.size := Writer.size w |} /\
  (Z.of_nat (length src) <= index -> Writer.writeBuffer src (Some index) w = w).
Proof.
  intros Hi Ho Hroom o rest. unfold Writer.writeBuffer.
  cbn [default from_option id]. split.
  - assert (Hrest : length rest = Z.to_nat (Z.of_nat (length src) - index))
      by (subst rest; rewrite length_drop; lia).
    destruct (Z_le_gt_dec index (Z.of_nat (length src))) as [Hin|Hpast].
    + rewrite <- (Z2Nat.id index) at 2 by lia.
      rewrite writeBuffer_loop_copy by lia.
      rewrite <- Hrest. fold o. subst rest.
      now rewrite (take_ge (drop _ _)) by lia.
    + rewrite <- Hrest. subst rest.
      rewrite (drop_ge src) by lia. cbn [length Writer.writeBuffer_loop map app].
      rewrite Nat.add_0_r, take_drop, Z.add_0_r. now destruct w.
  - intros Hpast.
    now replace (Z.to_nat (Z.of_nat (length src) - index)) with 0%nat by lia.
Qed.

Lemma writeBuffer_from_index_witness :
  Writer.writeBuffer [1; 2; 3; 4] (Some 2) (Writer.constructor [0; 0; 0] (Some 1))
    = Writer.mk [0; 3; 4] 3 3.
Proof.
  destruct (writeBuffer_from_index [1; 2; 3; 4] 2
              (Writer.constructor [0; 0; 0] (Some 1))) as [Hcopy _];
    [lia|cbn; lia|cbn; lia|].
  rewrite Hcopy. reflexivity.
Defined.

(** Bytes written with [writeBuffer] at an offset that leaves room for them
    are read back by [readBuffer] of their number at the same offset. *)
Theorem writeBuffer_readBuffer_roundtrip (buf src : list Z) (o : Z) :
  Forall is_byte src ->
  0 <= o ->
  o + Z.of_nat (length src) <= Z.of_nat (length buf) ->
  fst (Reader.readBuffer (Z.of_nat (length src))
         (Reader.constructor
            (Writer.buffer
               (Writer.writeBuffer src None (Writer.constructor buf (Some o))))
            (Some o)))
  = src.
Proof.
  intros Hsrc Ho Hroom.
  rewrite writeBuffer_splice
    by (cbn [Writer.constructor Writer.offset Writer.buffer default
             from_option id]; lia).
  cbn [Writer.constructor Writer.offset Writer.buffer default from_option id].
  rewrite map_mod_bytes by exact Hsrc.
  set (b0 := take (Z.to_nat o) buf ++ src
              ++ drop (Z.to_nat o + length src) buf).
  assert (Hfull : take (length buf) b0 = b0).
  { apply take_ge. subst b0.
    rewrite !length_app, length_take, length_drop. lia. }
  rewrite Hfull. set (b' := b0). assert (Hb' : b' = b0) by reflexivity.
  unfold b0 in Hb'. clearbody b'. clear Hfull b0.
  assert (Hlen : length b' = length buf).
  { rewrite Hb', !length_app, length_take, length_drop. lia. }
  unfold Reader.readBuffer, Reader.advance.
  cbn [fst Reader.buffer Reader.offset]. rewrite Reader_constructor_buffer.
  set (p := Reader.offset (Reader.constructor b' (Some o))).
  replace (p + Z.of_nat (length src) - Z.of_nat (length src)) with p by lia.
  destruct src as [|x src].
  - cbn [length Z.of_nat]. rewrite Z.add_0_r. unfold TypedArray.subarray.
    now rewrite Z.sub_diag, take_0.
  - assert (Hp : p = o).
    { subst p. apply Reader_constructor_offset. rewrite Hlen.
      cbn [length] in Hroom. lia. }
    rewrite Hp, subarray_forward by lia.
    rewrite Hlen, Z.min_l by lia. unfold bytes_between.
    replace (Z.to_nat (o + Z.of_nat (length (x :: src)) - o))
      with (length (x :: src)) by lia.
    rewrite Hb'. rewrite drop_app_length' by (rewrite length_take; lia).
    now rewrite take_app_length'.
Qed.

Lemma writeBuffer_readBuffer_roundtrip_witness :
  fst (Reader.readBuffer (Z.of_nat (length [7; 8]))
         (Reader.constructor
            (Writer.buffer
               (Writer.writeBuffer [7; 8] None
                  (Writer.constructor [0; 0; 0; 0] (Some 1))))
            (Some 1)))
  = [7; 8].
Proof.
  apply (writeBuffer_readBuffer_roundtrip [0; 0; 0; 0] [7; 8] 1).
  - repeat (constructor; [unfold is_byte; lia|]). constructor.
  - lia.
  - cbn. lia.
Defined.

(** ** Template: the bytes of the rendered buffer *)

Lemma splice_twice (b e1 e2 : list Z) (o : nat) :
  (o + length e1 <= length b)%nat ->
  let b1 := take o b ++ e1 ++ drop (o + length e1) b in
  take (o + length e1) b1 ++ e2 ++ drop (o + length e1 + length e2) b1
  = take o b ++ (e1 ++ e2) ++ drop (o + length (e1 ++ e2)) b.
Proof.
  intros Hroom b1.
  assert (Ho : length (take o b) = o) by (rewrite length_take; lia).
  assert (Hb1 : b1 = (take o b ++ e1) ++ drop (o + length e1) b)
    by (subst b1; now rewrite <- app_assoc).
  rewrite Hb1.
  rewrite take_app_length' by (rewrite length_app; lia).
  rewrite drop_app_add' by (rewrite length_app; lia).
  rewrite drop_drop, length_app, <- !app_assoc.
  now rewrite Nat.add_assoc.
Qed.

Lemma length_encoded (f : TemplateField.t) :
  sized f -> length (encoded f) = TemplateField.width f.
Proof.
  unfold sized, encoded, TemplateField.width. intros Hsized.
  pose proof (length_buffer_ge (TemplateField.data f)) as Hview.
  destruct (TemplateField.type f); [reflexivity|..];
    rewrite length_rev, length_take; lia.
Qed.

(** One field of the loop of [toBuffer]: its bytes go over the bytes of the
    buffer from the offset on. *)
Lemma writeField_encoded (f : TemplateField.t) (w : Writer.t) :
  sized f -> holds_bytes f ->
  0 <= Writer.offset w ->
  Writer.offset w + Z.of_nat (TemplateField.width f)
    <= Z.of_nat (length (Writer.buffer w)) ->
  let o := Z.to_nat (Writer.offset w) in
  Template.writeField f w =
    Returns {| Writer.buffer :=
                 take o (Writer.buffer w) ++ encoded f
                 ++ drop (o + TemplateField.width f) (Writer.buffer w);
               Writer.offset := Writer.offset w + Z.of_nat (TemplateField.width f);
               Writer.size := Writer.size w |}.
Proof.
  intros Hsized Hbytes Ho Hroom o.
  assert (TemplateField.type f = TemplateField.buffer \/
          TemplateField.type f <> TemplateField.buffer) as [Hk|Hk]
    by (destruct (TemplateField.type f); auto; right; discriminate).
  - unfold Template.writeField, encoded, TemplateField.width in *.
    rewrite Hk in *. unfold Uint8Array.byteLength in Hroom.
    rewrite writeBuffer_splice by lia. cbn zeta. fold o.
    rewrite map_mod_bytes.
    + unfold Uint8Array.byteLength. do 2 f_equal. apply take_ge.
      rewrite !length_app, length_take, length_drop. lia.
    + unfold holds_bytes, Uint8Array.buffer in Hbytes.
      apply Forall_app in Hbytes as [_ Hbytes].
      now apply Forall_app in Hbytes as [Hbytes _].
  - pose proof (length_buffer_ge (TemplateField.data f)) as Hview.
    unfold sized in Hsized.
    rewrite writeField_integer by (try assumption; lia).
    cbn zeta. fold o.
    assert (Henc : encoded f
                   = rev (take (TemplateField.width f)
                            (Uint8Array.buffer (TemplateField.data f))))
      by (unfold encoded; now destruct (TemplateField.type f)).
    assert (Hsrc : length (take (TemplateField.width f)
                             (Uint8Array.buffer (TemplateField.data f)))
                   = TemplateField.width f) by (rewrite length_take; lia).
    assert (Hrev : le_bytes (TemplateField.width f)
                     (to_signed (TemplateField.width f)
                        (be_value (take (TemplateField.width f)
                                     (Uint8Array.buffer (TemplateField.data f)))))
                   = encoded f).
    { rewrite Henc. rewrite <- Hsrc at 1 2. apply le_bytes_be_value.
      now apply Forall_take. }
    now rewrite Hrev.
Qed.

Lemma data_length_cons (f : TemplateField.t) (fs : list TemplateField.t) :
  data_length (f :: fs)
  = (Uint8Array.byteLength (TemplateField.data f) + data_length fs)%nat.
Proof. reflexivity. Qed.

Lemma declared_width_cons (f : TemplateField.t) (fs : list TemplateField.t) :
  declared_width (f :: fs) = (TemplateField.width f + declared_width fs)%nat.
Proof. reflexivity. Qed.

Lemma declared_le_data (fs : list TemplateField.t) :
  Forall sized fs -> (declared_width fs <= data_length fs)%nat.
Proof.
  induction 1 as [|f fs Hf _ IH]; [reflexivity|].
  rewrite data_length_cons, declared_width_cons. unfold sized in Hf. lia.
Qed.

Lemma length_concat_encoded (fs : list TemplateField.t) :
  Forall sized fs -> length (concat (map encoded fs)) = declared_width fs.
Proof.
  induction 1 as [|f fs Hf _ IH]; [reflexivity|].
  rewrite declared_width_cons. cbn [map concat].
  now rewrite length_app, IH, length_encoded.
Qed.

Lemma toBuffer_loop_encoded (fs : list TemplateField.t) (w : Writer.t) :
  Forall sized fs -> Forall holds_bytes fs ->
  0 <= Writer.offset w ->
  Writer.offset w + Z.of_nat (data_length fs)
    <= Z.of_nat (length (Writer.buffer w)) ->
  let o := Z.to_nat (Writer.offset w) in
  Template.toBuffer_loop fs w =
    Returns {| Writer.buffer :=
                 take o (Writer.buffer w) ++ concat (map encoded fs)
                 ++ drop (o + declared_width fs) (Writer.buffer w);
               Writer.offset := Writer.offset w + Z.of_nat (declared_width fs);
               Writer.size := Writer.size w |}.
Proof.
  intros Hsized; revert w.
  induction Hsized as [|f fs Hf Hfs IH]; intros w Hbytes Ho Hroom o.
  - cbn [Template.toBuffer_loop map concat app].
    change (declared_width []) with 0%nat.
    rewrite Nat.add_0_r, take_drop, Z.add_0_r. now destruct w.
  - apply Forall_cons in Hbytes as [Hbf Hbfs].
    rewrite data_length_cons in Hroom.
    pose proof Hf as Hf'. unfold sized in Hf'.
    pose proof (declared_le_data fs Hfs) as Hdw.
    pose proof (length_concat_encoded fs Hfs) as Hcat.
    pose proof (length_encoded f Hf) as Hlen.
    cbn [Template.toBuffer_loop].
    rewrite writeField_encoded by (try assumption; lia). cbn [bind].
    rewrite IH; cbn [Writer.buffer Writer.offset Writer.size];
      [|assumption|lia|].
    + fold o. rewrite declared_width_cons. cbn [map concat].
      replace (Z.to_nat (Writer.offset w + Z.of_nat (TemplateField.width f)))
        with (o + length (encoded f))%nat by lia.
      rewrite <- Hlen, <- Hcat.
      rewrite splice_twice by lia.
      rewrite length_app. f_equal. f_equal. lia.
    + rewrite !length_app, length_take, length_drop. lia.
Qed.

(** What [toBuffer] returns, byte for byte, when the data of every field is
    at least as long as its type declares: the bytes of the fields one after
    the other, those of an integer field reversed, followed by bytes that
    [toBuffer] never writes when some field has more data than its type
    declares; these are whatever [Buffer.allocUnsafe] found in memory. *)
Theorem toBuffer_bytes (fs : list TemplateField.t) (junk : nat -> Z) :
  Forall sized fs -> Forall holds_bytes fs ->
  Template.toBuffer junk (Template.constructor (Some fs))
  = Returns (concat (map encoded fs)
             ++ drop (declared_width fs)
                  (Template.allocUnsafe junk (data_length fs))).
Proof.
  intros Hsized Hbytes. unfold Template.toBuffer.
  rewrite Template_constructor_byteLength.
  cbn [Template.constructor Template.fields default from_option id].
  rewrite toBuffer_loop_encoded; try assumption.
  - reflexivity.
  - cbn. lia.
  - cbn [Writer.constructor Writer.offset Writer.buffer default from_option id].
    rewrite length_allocUnsafe. lia.
Qed.

Lemma toBuffer_bytes_witness :
  Template.toBuffer (fun _ => 170)
    (Template.constructor
       (Some [TemplateField.mk TemplateField.uint16 (Uint8Array.of_list [3; 2]);
              TemplateField.mk TemplateField.uint8 (Uint8Array.of_list [5; 6]);
              TemplateField.mk TemplateField.buffer (Uint8Array.of_list [8; 9])]))
  = Returns [2; 3; 5; 8; 9; 170].
Proof.
  rewrite toBuffer_bytes; [reflexivity|..].
  - repeat (constructor; [vm_compute; lia|]). constructor.
  - repeat (constructor;
            [simpl; repeat (constructor; [unfold is_byte; lia|]); constructor|]).
    constructor.
Defined.

(** ** Template: fields that cannot be rendered *)

Lemma writeField_throws (f : TemplateField.t) (w : Writer.t) :
  (exists w', Template.writeField f w = Returns w') \/
  Template.writeField f w = Throws RangeError.
Proof.
  assert (Hget : forall n view,
            (exists v, DataView.getIntBE n view 0 = Returns v) \/
            DataView.getIntBE n view 0 = Throws RangeError).
  { intros n view. unfold DataView.getIntBE.
    destruct (DataView.in_bounds _ _ _); eauto. }
  assert (Hset : forall n mem o v,
            (exists m, DataView.setUintLE n mem o v = Returns m) \/
            DataView.setUintLE n mem o v = Throws RangeError).
  { intros n mem o v. unfold DataView.setUintLE.
    destruct (DataView.in_bounds _ _ _); eauto. }
  unfold Template.writeField.
  destruct (TemplateField.type f); [eauto|..].
  - destruct (Hget 1%nat (Uint8Array.buffer (TemplateField.data f)))
      as [[v ->]| ->]; cbn [bind]; eauto.
  - destruct (Hget 2%nat (Uint8Array.buffer (TemplateField.data f)))
      as [[v ->]| ->]; cbn [bind]; [|auto]. unfold Writer.writeUint16.
    destruct (Hset 2%nat (Writer.buffer w) (Writer.offset w) v)
      as [[m ->]| ->]; cbn [bind]; eauto.
  - destruct (Hget 4%nat (Uint8Array.buffer (TemplateField.data f)))
      as [[v ->]| ->]; cbn [bind]; [|auto]. unfold Writer.writeUint32.
    destruct (Hset 4%nat (Writer.buffer w) (Writer.offset w) v)
      as [[m ->]| ->]; cbn [bind]; eauto.
  - destruct (Hget 8%nat (Uint8Array.buffer (TemplateField.data f)))
      as [[v ->]| ->]; cbn [bind]; [|auto]. unfold Writer.writeUint64.
    destruct (Hset 8%nat (Writer.buffer w) (Writer.offset w) v)
      as [[m ->]| ->]; cbn [bind]; eauto.
Qed.

Lemma writeField_short_view (f : TemplateField.t) (w : Writer.t) :
  short_view f -> Template.writeField f w = Throws RangeError.
Proof.
  intros [Hk Hshort]. unfold Template.writeField, TemplateField.width in *.
  assert (Hget : forall n : nat,
            (length (Uint8Array.buffer (TemplateField.data f)) < n)%nat ->
            DataView.getIntBE n (Uint8Array.buffer (TemplateField.data f)) 0
              = Throws RangeError).
  { intros n Hn. unfold DataView.getIntBE.
    destruct (DataView.in_bounds _ _ _) eqn:Hb; [|reflexivity].
    apply in_bounds_true in Hb. lia. }
  destruct (TemplateField.type f); [congruence|..];
    now rewrite Hget by exact Hshort.
Qed.

(** [toBuffer] throws a [RangeError], and returns no buffer, as soon as one
    field of an integer type has an array buffer under its data that is
    shorter than the width of the type (a [uint8] field without data, for
    one), wherever the field stands and whatever length was cached. *)
Theorem toBuffer_short_field (t : Template.t) (junk : nat -> Z) :
  Exists short_view (Template.fields t) ->
  Template.toBuffer junk t = Throws RangeError.
Proof.
  intros Hshort. unfold Template.toBuffer.
  generalize (Writer.constructor
                (Template.allocUnsafe junk (Template.byteLength t)) None).
  induction Hshort as [f fs Hf|f fs _ IH]; intros w;
    cbn [Template.toBuffer_loop].
  - now rewrite writeField_short_view.
  - destruct (writeField_throws f w) as [[w' ->]| ->]; cbn [bind]; auto.
Qed.

Lemma toBuffer_short_field_witness :
  Template.toBuffer (fun _ => 0)
    (Template.constructor
       (Some [TemplateField.mk TemplateField.buffer (Uint8Array.of_list [1; 2]);
              TemplateField.mk TemplateField.uint16 (Uint8Array.of_list [1])]))
  = Throws RangeError.
Proof.
  apply toBuffer_short_field. right. left. split; [discriminate|].
  vm_compute. lia.
Defined.

(** ** MerkleTree: the calls of the hash function *)

(** The loops compute the same hashes whatever calls were recorded before:
    the record only grows. *)
Lemma forLoop_calls (f : list Z -> list Z) (i : nat) :
  forall hs calls : list (list Z),
    MerkleTree.forLoop f i hs calls
    = (let* r := MerkleTree.forLoop f i hs [] in
       Returns (fst r, calls ++ snd r)).
Proof.
  induction i as [i IH] using (well_founded_induction lt_wf).
  intros hs calls. destruct i as [|[|i']].
  - cbn. now rewrite app_nil_r.
  - cbn. now rewrite app_nil_r.
  - cbn [MerkleTree.forLoop].
    destruct (hs !! i') as [l|]; [|reflexivity].
    destruct (hs !! S i') as [r|]; [|reflexivity].
    rewrite (IH i' ltac:(lia) _ (calls ++ [l ++ r])).
    rewrite (IH i' ltac:(lia) _ ([] ++ [l ++ r])).
    destruct (MerkleTree.forLoop f i' _ []) as [[hs' calls']| |];
      cbn [bind fst snd]; [|reflexivity..].
    now rewrite <- app_assoc.
Qed.

Lemma whileLoop_calls (f : list Z -> list Z) (fuel : nat) :
  forall hs calls : list (list Z),
    MerkleTree.whileLoop fuel f hs calls
    = (let* r := MerkleTree.whileLoop fuel f hs [] in
       Returns (fst r, calls ++ snd r)).
Proof.
  induction fuel as [|fuel IH]; intros hs calls; cbn [MerkleTree.whileLoop].
  - destruct (1 <? length hs)%nat; cbn; [reflexivity|].
    now rewrite app_nil_r.
  - destruct (1 <? length hs)%nat; [|cbn; now rewrite app_nil_r].
    rewrite (forLoop_calls f (length hs) hs calls).
    destruct (MerkleTree.forLoop f (length hs) hs []) as [[hs1 calls1]| |];
      cbn [bind fst snd]; [|reflexivity..].
    rewrite (IH hs1 (calls ++ calls1)), (IH hs1 calls1).
    destruct (MerkleTree.whileLoop fuel f hs1 []) as [[hs' calls']| |];
      cbn [bind fst snd]; [|reflexivity..].
    now rewrite <- app_assoc.
Qed.

(** Each call of the hash function takes one hash off the working list. *)
Lemma forLoop_count (f : list Z -> list Z) (i : nat) :
  forall hs calls hs' calls' : list (list Z),
    (i <= length hs)%nat ->
    MerkleTree.forLoop f i hs calls = Returns (hs', calls') ->
    (length calls' + length hs' = length calls + length hs)%nat.
Proof.
  induction i as [i IH] using (well_founded_induction lt_wf).
  intros hs calls hs' calls' Hi. destruct i as [|[|i']].
  - now intros [= <- <-].
  - now intros [= <- <-].
  - cbn [MerkleTree.forLoop].
    destruct (hs !! i') as [l|]; [|discriminate].
    destruct (hs !! S i') as [r|]; [|discriminate].
    intros Hloop. apply IH in Hloop; [|lia|rewrite length_pop, length_insert; lia].
    rewrite length_app, length_pop, length_insert in Hloop. cbn [length] in Hloop.
    lia.
Qed.

Lemma whileLoop_count (f : list Z -> list Z) (fuel : nat) :
  forall hs calls hs' calls' : list (list Z),
    MerkleTree.whileLoop fuel f hs calls = Returns (hs', calls') ->
    (length calls' + length hs' = length calls + length hs)%nat.
Proof.
  induction fuel as [|fuel IH]; intros hs calls hs' calls';
    cbn [MerkleTree.whileLoop];
    destruct (1 <? length hs)%nat; try discriminate;
    try (now intros [= <- <-]).
  destruct (MerkleTree.forLoop f (length hs) hs calls) as [[hs1 calls1]| |]
    eqn:Hpass; cbn [bind fst snd]; [|discriminate..].
  intros Hloop. apply IH in Hloop.
  apply forLoop_count in Hpass; [lia|reflexivity].
Qed.

(** The tree that the constructor leaves, from the run of the [while] loop
    on the padded list. *)
Lemma constructor_run (hs : list (list Z)) (f : list Z -> list Z)
  (size : option nat) (r : list (list Z) * list (list Z)) :
  hs <> [] ->
  MerkleTree.whileLoop (length (MerkleTree.padded hs)) f
    (MerkleTree.padded hs) [] = Returns r ->
  MerkleTree.constructor hs f size
  = Returns {| MerkleTree.hashes := MerkleTree.padded hs;
               MerkleTree.hashFunction := f;
               MerkleTree.hashSize := default MerkleTree.DEFAULT_HASH_SIZE size;
               MerkleTree.merkleRoot := fst r !! 0%nat;
               MerkleTree.hashCalls := snd r |}.
Proof.
  intros Hne Hrun. unfold MerkleTree.constructor, MerkleTree.getRoot.
  cbn zeta. cbn [MerkleTree.hashes MerkleTree.merkleRoot].
  destruct hs as [|h hs]; [congruence|]. cbn [length Nat.eqb].
  unfold MerkleTree.computeMerkleRoot. cbn zeta.
  cbn [MerkleTree.set_hashes MerkleTree.hashes MerkleTree.hashFunction
       MerkleTree.hashCalls MerkleTree.hashSize MerkleTree.merkleRoot].
  rewrite Hrun. reflexivity.
Qed.

Lemma length_padded_ge (hs : list (list Z)) :
  hs <> [] -> (2 <= length (MerkleTree.padded hs))%nat.
Proof.
  intros Hne. pose proof (padded_even hs) as Heven.
  destruct (MerkleTree.padded hs) as [|a [|b l]] eqn:Hp; cbn [length] in *;
    [|cbn in Heven; lia|lia].
  now apply padded_nil_inv in Hp.
Qed.

(** The constructor calls the hash function once for each hash of the padded
    list but one, and not at all for an empty list. *)
Theorem constructor_hash_calls (hs : list (list Z)) (f : list Z -> list Z)
  (size : option nat) :
  exists t,
    MerkleTree.constructor hs f size = Returns t /\
    length (MerkleTree.hashCalls t) = (length (MerkleTree.hashes t) - 1)%nat.
Proof.
  destruct hs as [|h hs].
  - eexists. split; [reflexivity|]. reflexivity.
  - destruct (whileLoop_returns f (length (MerkleTree.padded (h :: hs)))
                (MerkleTree.padded (h :: hs)) [] (le_n _))
      as (hs' & calls' & Hrun & _ & _ & Hone).
    pose proof (whileLoop_count _ _ _ _ _ _ Hrun) as Hcount.
    eexists. split; [apply (constructor_run (h :: hs) f size (hs', calls'));
                     [discriminate|exact Hrun]|].
    cbn [MerkleTree.hashCalls MerkleTree.hashes snd].
    rewrite Hone in Hcount.
    + cbn [length] in Hcount. lia.
    + intros Hnil. now apply padded_nil_inv in Hnil.
Qed.




(** ** MerkleTree: the leaves that the root does not cover *)

Lemma scanned_prefix (f : list Z -> list Z) (hs hs' : list (list Z)) :
  length hs' = length hs ->
  take (length hs / 2 + 1) hs' = take (length hs / 2 + 1) hs ->
  take (length hs / 2) (scanned f (length hs) hs')
  = take (length hs / 2) (scanned f (length hs) hs).
Proof.
  intros Hlen Hpre.
  assert (Hsame : forall j, (j < length hs / 2 + 1)%nat -> hs' !! j = hs !! j).
  { intros j Hj.
    rewrite <- (lookup_take_lt hs' (length hs / 2 + 1) j) by exact Hj.
    rewrite <- (lookup_take_lt hs (length hs / 2 + 1) j) by exact Hj.
    now rewrite Hpre. }
  apply list_eq. intros k. rewrite !lookup_take.
  case_decide; [|reflexivity].
  unfold scanned. rewrite !list_lookup_imap.
  rewrite (Hsame k) by lia. rewrite (Hsame (S k)) by lia. reflexivity.
Qed.

(** Two lists of hashes of the same even length that agree on their first
    half and on the hash after it have the same root: from four hashes on,
    the last hashes of the list have no part in the root. *)
Theorem root_ignores_last_leaves (f : list Z -> list Z)
  (hs hs' : list (list Z)) (size : option nat) :
  Nat.even (length hs) = true ->
  length hs' = length hs ->
  take (length hs / 2 + 1) hs' = take (length hs / 2 + 1) hs ->
  exists t t',
    MerkleTree.constructor hs f size = Returns t /\
    MerkleTree.constructor hs' f size = Returns t' /\
    MerkleTree.merkleRoot t' = MerkleTree.merkleRoot t.
Proof.
  intros Heven Hlen Hpre.
  assert (Heven' : Nat.even (length hs') = true) by now rewrite Hlen.
  destruct hs as [|h0 hs0] eqn:Hhs.
  { destruct hs'; [|discriminate Hlen]. do 2 eexists.
    split; [reflexivity|]. split; reflexivity. }
  rewrite <- Hhs in *.
  assert (Hne : hs <> []) by (rewrite Hhs; discriminate).
  assert (Hne' : hs' <> []) by (intros ->; rewrite Hhs in Hlen; discriminate).
  assert (Hpad : MerkleTree.padded hs = hs).
  { apply padded_of_even. apply Nat.even_spec in Heven as [n Hn]. lia. }
  assert (Hpad' : MerkleTree.padded hs' = hs').
  { apply padded_of_even. apply Nat.even_spec in Heven' as [n Hn]. lia. }
  assert (Hlong : (2 <= length hs)%nat)
    by (rewrite <- Hpad; now apply length_padded_ge).
  destruct (pass_of_even f hs [] Heven) as (p & c & Hpass & Hp & _).
  destruct (pass_of_even f hs' [] Heven') as (p' & c' & Hpass' & Hp' & _).
  assert (Hsame : p' = p).
  { rewrite Hp, Hp', Hlen. now apply scanned_prefix. }
  rewrite Hsame in Hpass'. clear Hp' Hsame p'.
  destruct (whileLoop_returns f (length hs) hs [] (le_n _))
    as (r & rc & Hrun & _).
  destruct (whileLoop_returns f (length hs') hs' [] (le_n _))
    as (r' & rc' & Hrun' & _).
  exists (MerkleTree.mk hs f (default MerkleTree.DEFAULT_HASH_SIZE size)
            (r !! 0%nat) rc),
         (MerkleTree.mk hs' f (default MerkleTree.DEFAULT_HASH_SIZE size)
            (r' !! 0%nat) rc').
  split; [|split].
  - rewrite <- Hpad at 2.
    apply (constructor_run hs f size (r, rc) Hne). now rewrite Hpad.
  - rewrite <- Hpad' at 2.
    apply (constructor_run hs' f size (r', rc') Hne'). now rewrite Hpad'.
  - cbn [MerkleTree.merkleRoot]. f_equal.
    rewrite Hlen in Hrun', Hpass'.
    destruct (length hs) as [|fuel] eqn:Hfuel; [lia|].
    cbn [MerkleTree.whileLoop] in Hrun, Hrun'.
    rewrite Hfuel in Hrun. rewrite Hlen in Hrun'.
    destruct (Nat.ltb_spec 1 (S fuel)); [|lia].
    rewrite Hpass in Hrun. rewrite Hpass' in Hrun'.
    cbn [bind fst snd] in Hrun, Hrun'.
    rewrite whileLoop_calls in Hrun. rewrite whileLoop_calls in Hrun'.
    destruct (MerkleTree.whileLoop fuel f p []) as [[q qc]| |];
      cbn [bind fst snd] in Hrun, Hrun'; [|discriminate..].
    congruence.
Qed.

Lemma root_ignores_last_leaves_witness :
  exists t t',
    MerkleTree.constructor [[1]; [2]; [3]; [4]] (fun h => h) None = Returns t /\
    MerkleTree.constructor [[1]; [2]; [3]; [9]] (fun h => h) None = Returns t' /\
    MerkleTree.merkleRoot t' = MerkleTree.merkleRoot t.
Proof.
  apply (root_ignores_last_leaves (fun h => h)
           [[1]; [2]; [3]; [4]] [[1]; [2]; [3]; [9]] None); reflexivity.
Defined.

(** ** MerkleTree: computing the root again *)

(** [computeMerkleRoot] on a constructed tree with leaves returns the root
    that the tree holds, after calling the hash function again as many times
    as the constructor did; [getRoot] returns that root without a call. *)
Theorem computeMerkleRoot_again (hs : list (list Z)) (f : list Z -> list Z)
  (size : option nat) (t : MerkleTree.t) :
  hs <> [] ->
  MerkleTree.constructor hs f size = Returns t ->
  MerkleTree.computeMerkleRoot t
    = Returns (MerkleTree.merkleRoot t,
               MerkleTree.set_hashCalls
                 (MerkleTree.hashCalls t ++ MerkleTree.hashCalls t) t) /\
  MerkleTree.getRoot t = Returns (MerkleTree.merkleRoot t, t).
Proof.
  intros Hne Ht.
  destruct (whileLoop_returns f (length (MerkleTree.padded hs))
              (MerkleTree.padded hs) [] (le_n _))
    as (r & rc & Hrun & _ & _ & Hone).
  rewrite (constructor_run hs f size (r, rc) Hne Hrun) in Ht.
  injection Ht as <-. cbn [fst snd]. split.
  - unfold MerkleTree.computeMerkleRoot. cbn zeta.
    cbn [MerkleTree.set_hashes MerkleTree.hashes MerkleTree.hashFunction
         MerkleTree.hashCalls MerkleTree.merkleRoot].
    rewrite (padded_of_even (MerkleTree.padded hs)) by apply padded_even.
    rewrite whileLoop_calls, Hrun. cbn [bind fst snd]. reflexivity.
  - unfold MerkleTree.getRoot. cbn [MerkleTree.hashes MerkleTree.merkleRoot].
    pose proof (length_padded_ge hs Hne) as Hlong.
    destruct (Nat.eqb_spec (length (MerkleTree.padded hs)) 0); [lia|].
    destruct r as [|root r]; [|reflexivity].
    cbn [length] in Hone. assert (0 = 1)%nat; [|lia].
    apply Hone. intros Hnil. now apply padded_nil_inv in Hnil.
Qed.

Lemma computeMerkleRoot_again_witness :
  MerkleTree.getRoot (MerkleTree.mk [[1]; [1]] (fun h => h) 32 (Some [1; 1]) [[1; 1]])
  = Returns (Some [1; 1],
             MerkleTree.mk [[1]; [1]] (fun h => h) 32 (Some [1; 1]) [[1; 1]]).
Proof.
  apply (computeMerkleRoot_again [[1]] (fun h => h) None
           (MerkleTree.mk [[1]; [1]] (fun h => h) 32 (Some [1; 1]) [[1; 1]])).
  - discriminate.
  - reflexivity.
Defined.

(** ** Block and Transaction: the cached buffer *)

(** Once [getBuffer] has returned, the block holds the bytes it returned,
    and every later [getBuffer] returns the same bytes and leaves the block
    as it is without a call of [toBuffer], whatever [toBuffer] would do. *)
Theorem Block_getBuffer_cached (S : Type)
  (toBuffer toBuffer' : Block.t S -> outcome (list Z * Block.t S))
  (this this' : Block.t S) (b : list Z) :
  Block.getBuffer toBuffer this = Returns (b, this') ->
  Block.buffer this' = Some b /\
  Block.getBuffer toBuffer' this' = Returns (b, this').
Proof.
  unfold Block.getBuffer. destruct (Block.buffer this) as [b0|] eqn:Hb.
  - intros [= <- <-]. now rewrite Hb.
  - destruct (toBuffer this) as [[b1 this1]| |]; cbn [bind fst snd];
      [|discriminate..].
    intros [= <- <-]. split; reflexivity.
Qed.

Lemma Block_getBuffer_cached_witness :
  Block.getBuffer (fun _ => Throws TypeError)
    (Block.mk (Some [1; 2]) tt)
  = Returns ([1; 2], Block.mk (Some [1; 2]) tt).
Proof.
  apply (Block_getBuffer_cached unit (fun x => Returns ([1; 2], x))
           (fun _ => Throws TypeError) (Block.constructor tt)).
  reflexivity.
Defined.

(** A transaction constructed with a buffer returns it from [getBuffer]
    without a call of [toBuffer]; one constructed without a buffer returns
    what [toBuffer] returns, keeps it, and returns it again from every later
    [getBuffer] without a call of [toBuffer]. *)
Theorem Transaction_getBuffer_cached (S : Type)
  (toBuffer toBuffer' : Transaction.t S -> outcome (list Z * Transaction.t S))
  (fields : S) :
  (forall b,
     Transaction.getBuffer toBuffer (Transaction.constructor (Some b) fields)
     = Returns (b, Transaction.constructor (Some b) fields)) /\
  (forall b this',
     Transaction.getBuffer toBuffer (Transaction.constructor None fields)
       = Returns (b, this') ->
     (exists this1,
        toBuffer (Transaction.constructor None fields) = Returns (b, this1)) /\
     Transaction.buffer this' = Some b /\
     Transaction.getBuffer toBuffer' this' = Returns (b, this')).
Proof.
  split; [reflexivity|]. intros b this'. unfold Transaction.getBuffer.
  cbn [Transaction.constructor Transaction.buffer].
  destruct (toBuffer _) as [[b1 this1]| |]; cbn [bind fst snd];
    [|discriminate..].
  intros [= <- <-]. split; [now exists this1|]. split; reflexivity.
Qed.

Lemma Transaction_getBuffer_cached_witness :
  Transaction.getBuffer (fun _ => Throws TypeError)
    (Transaction.mk (Some [7]) [] tt)
  = Returns ([7], Transaction.mk (Some [7]) [] tt).
Proof.
  destruct (Transaction_getBuffer_cached unit (fun x => Returns ([7], x))
              (fun _ => Throws TypeError) tt) as [_ Hnone].
  apply (Hnone [7]). reflexivity.
Defined.

(** ** Wallet: the public key in hexadecimal *)

Lemma hex_digit_inj (d e : Z) :
  0 <= d < 16 -> 0 <= e < 16 ->
  Wallet.hex_digit d = Wallet.hex_digit e -> d = e.
Proof.
  intros Hd He Heq. unfold Wallet.hex_digit in Heq.
  apply (f_equal Ascii.nat_of_ascii) in Heq.
  rewrite !Ascii.nat_ascii_embedding in Heq.
  - destruct (d <? 10) eqn:Hd10, (e <? 10) eqn:He10; lia.
  - destruct (e <? 10); lia.
  - destruct (d <? 10); lia.
Qed.

(** [toHex] writes two characters for each byte of the public key, and
    tells public keys apart: two wallets with the same text have the same
    public key. *)
Theorem Wallet_toHex_injective (w1 w2 : Wallet.t) :
  Forall is_byte (Wallet.publicKey w1) ->
  Forall is_byte (Wallet.publicKey w2) ->
  String.length (Wallet.toHex w1) = (2 * length (Wallet.publicKey w1))%nat /\
  (Wallet.toHex w1 = Wallet.toHex w2 ->
   Wallet.publicKey w1 = Wallet.publicKey w2).
Proof.
  unfold Wallet.toHex. generalize (Wallet.publicKey w1), (Wallet.publicKey w2).
  clear w1 w2. intros k1 k2 H1 H2. split.
  - clear. induction k1 as [|b k1 IH]; [reflexivity|].
    cbn [Wallet.hex String.length length]. rewrite IH. lia.
  - revert k2 H2. induction H1 as [|b k1 Hb _ IH]; intros k2 H2 Heq.
    + destruct k2; [reflexivity|discriminate].
    + destruct H2 as [|c k2 Hc H2]; [discriminate|].
      cbn [Wallet.hex] in Heq. injection Heq as Hhi Hlo Hrest.
      unfold is_byte in Hb, Hc.
      apply hex_digit_inj in Hhi; [|lia..].
      apply hex_digit_inj in Hlo; [|lia..].
      f_equal; [lia|]. now apply IH.
Qed.

Lemma Wallet_toHex_injective_witness :
  String.length (Wallet.toHex (Wallet.mk [0; 255; 16] None)) = 6%nat.
Proof.
  apply (Wallet_toHex_injective (Wallet.mk [0; 255; 16] None)
           (Wallet.mk [] None)).
  - repeat (constructor; [unfold is_byte; lia|]). constructor.
  - constructor.
Defined.

(** ** Writer: a wide write as two narrow ones *)

Lemma le_bytes_add (n m : nat) (v : Z) :
  le_bytes (n + m) v = le_bytes n v ++ le_bytes m (v / 256 ^ Z.of_nat n).
Proof.
  revert v; induction n as [|n IH]; intros v.
  - cbn [Nat.add le_bytes app]. now rewrite Z.div_1_r.
  - cbn [Nat.add le_bytes app]. rewrite IH. do 3 f_equal.
    rewrite Nat2Z.inj_succ, Z.pow_succ_r by lia.
    now rewrite Z.div_div by lia.
Qed.

Lemma writeUint_halves (half whole : uint) (v : Z) (w : Writer.t) :
  uint_width whole = (uint_width half + uint_width half)%nat ->
  0 <= Writer.offset w ->
  Writer.offset w + Z.of_nat (uint_width whole)
    <= Z.of_nat (length (Writer.buffer w)) ->
  writeUint whole v w
  = (let* w1 := writeUint half v w in
     writeUint half (v / 256 ^ Z.of_nat (uint_width half)) w1).
Proof.
  intros Hwidth Ho Hroom. set (n := uint_width half) in *.
  rewrite (writeUint_in_bounds whole) by assumption.
  rewrite (writeUint_in_bounds half) by (fold n; lia). cbn [bind]. fold n.
  rewrite (writeUint_in_bounds half);
    cbn [Writer.buffer Writer.offset Writer.size]; fold n.
  - rewrite Hwidth, le_bytes_add.
    set (o := Z.to_nat (Writer.offset w)).
    replace (Z.to_nat (Writer.offset w + Z.of_nat n)) with (o + n)%nat by lia.
    f_equal. f_equal; [|lia].
    pose proof (splice_twice (Writer.buffer w) (le_bytes n v)
                  (le_bytes n (v / 256 ^ Z.of_nat n)) o) as Hsplice.
    rewrite length_app, !length_le_bytes in Hsplice. cbn zeta in Hsplice.
    rewrite Hsplice by lia. reflexivity.
  - lia.
  - rewrite !length_app, length_take, length_le_bytes, length_drop. lia.
Qed.

(** A write of two bytes is two writes of one byte, the low byte first; a
    write of four bytes is two writes of two bytes, and a write of eight
    bytes two writes of four, the low half first. *)
Theorem write_wide_as_two_halves (v : Z) (w : Writer.t) :
  0 <= Writer.offset w ->
  (Writer.offset w + 2 <= Z.of_nat (length (Writer.buffer w)) ->
   Writer.writeUint16 v w
   = Returns (Writer.writeUint8 (v / 2 ^ 8) (Writer.writeUint8 v w))) /\
  (Writer.offset w + 4 <= Z.of_nat (length (Writer.buffer w)) ->
   Writer.writeUint32 v w
   = (let* w1 := Writer.writeUint16 v w in
      Writer.writeUint16 (v / 2 ^ 16) w1)) /\
  (Writer.offset w + 8 <= Z.of_nat (length (Writer.buffer w)) ->
   Writer.writeUint64 v w
   = (let* w1 := Writer.writeUint32 v w in
      Writer.writeUint32 (v / 2 ^ 32) w1)).
Proof.
  intros Ho. split; [|split]; intros Hroom.
  - exact (writeUint_halves Uint8 Uint16 v w eq_refl Ho Hroom).
  - exact (writeUint_halves Uint16 Uint32 v w eq_refl Ho Hroom).
  - exact (writeUint_halves Uint32 Uint64 v w eq_refl Ho Hroom).
Qed.

Lemma write_wide_as_two_halves_witness :
  Writer.writeUint32 305419896 (Writer.constructor [0; 0; 0; 0] None)
  = (let* w1 := Writer.writeUint16 305419896
                  (Writer.constructor [0; 0; 0; 0] None) in
     Writer.writeUint16 (305419896 / 2 ^ 16) w1).
Proof.
  destruct (write_wide_as_two_halves 305419896
              (Writer.constructor [0; 0; 0; 0] None)) as (_ & H32 & _);
    [cbn; lia|].
  apply H32. cbn. lia.
Defined.

(** ** MerkleTree: what one pass leaves *)

(** One pass of the [for] loop over a list of even length [N] returns, and
    leaves [N / 2] hashes: at an even index the hash of the pair that starts
    there, and at an odd index the hash that the list had there. *)
Theorem pass_leaves_half (f : list Z -> list Z) (hs calls : list (list Z)) :
  Nat.even (length hs) = true ->
  exists hs' calls',
    MerkleTree.forLoop f (length hs) hs calls = Returns (hs', calls') /\
    length hs' = (length hs / 2)%nat /\
    (forall (k : nat) (l r : list Z),
       (k < length hs / 2)%nat -> Nat.even k = true ->
       hs !! k = Some l -> hs !! S k = Some r ->
       hs' !! k = Some (f (l ++ r))) /\
    (forall (k : nat) (h : list Z),
       (k < length hs / 2)%nat -> Nat.even k = false ->
       hs !! k = Some h -> hs' !! k = Some h).
Proof.
  intros Heven.
  destruct (pass_of_even f hs calls Heven) as (hs' & calls' & Hpass & Hhs' & Hlen & _).
  exists hs', calls'. split; [exact Hpass|]. split; [exact Hlen|].
  assert (Hlookup : forall k h, (k < length hs / 2)%nat -> hs !! k = Some h ->
            hs' !! k = Some (if Nat.even k
                             then f (h ++ default [] (hs !! S k)) else h)).
  { intros k h Hk Hh. rewrite Hhs', lookup_take_lt by exact Hk.
    unfold scanned. rewrite list_lookup_imap, Hh. cbn [fmap option_fmap option_map].
    destruct (Nat.ltb_spec k (length hs)); [reflexivity|lia]. }
  split.
  - intros k l r Hk Hek Hl Hr. rewrite (Hlookup k l Hk Hl), Hek, Hr. reflexivity.
  - intros k h Hk Hok Hh. rewrite (Hlookup k h Hk Hh), Hok. reflexivity.
Qed.

Lemma pass_leaves_half_witness :
  exists hs' calls',
    MerkleTree.forLoop (fun h => h) (length [[1]; [2]; [3]; [4]])
      [[1]; [2]; [3]; [4]] [] = Returns (hs', calls') /\
    length hs' = 2%nat.
Proof.
  destruct (pass_leaves_half (fun h => h) [[1]; [2]; [3]; [4]] [])
    as (hs' & calls' & Hpass & Hlen & _); [reflexivity|].
  exists hs', calls'. split; [exact Hpass|exact Hlen].
Defined.

(** ** The cursors: the offset after a read or a write *)

Lemma Reader_offset_after_read_witness :
  Reader.offset (snd (Reader.readUint16 (Reader.constructor [1; 2; 3] (Some 1))))
  = 1 + 2.
Proof.
  destruct (Reader_offset_after_read [1; 2; 3] 1 0) as (_ & H16 & _);
    [simpl; lia|].
  exact H16.
Defined.

Lemma Writer_offset_after_write_witness :
  Writer.offset (Writer.writeBuffer [7; 8; 9] None
                   (Writer.constructor [0; 0] (Some 5))) = 5 + 3.
Proof.
  destruct (Writer_offset_after_write [0; 0] 5 0) as (_ & _ & _ & _ & Hbuf).
  exact (Hbuf [7; 8; 9]).
Defined.
